(** * Round-trip plugin (plugins/round_trip.hpp)

    A shallow embedding of [RoundTripPlugin] and the properties of its
    request pipeline: location resolution, connectivity partitioning,
    heuristic dispatch, route stitching and aggregation.

    The plugin is a template over its data facade and talks to several
    collaborators that live in other headers (search engine, SCC, tour
    heuristics, descriptor).  Those are interfaces here (type classes); the
    member functions of the plugin itself are transcribed one by one.

    Calls to collaborators are recorded in a trace, so that "which call was
    made, and how often" is a statement about a value.  Behaviour that C++
    leaves undefined (indexing past the end, [front] of an empty vector,
    signed overflow) and failed assertions end the computation with
    [Undefined]; assertions are taken as checked.

    Layout: the interfaces; a small network that implements them; the plugin;
    the definitions the properties are stated with; the properties; the
    properties instantiated on the small network. *)

From Stdlib Require Import ZArith QArith Lia.

From stdpp Require Import base option list strings gmap.

Local Open Scope Z_scope.

Local Open Scope nat_scope.

(** ** JSON container (osrm/json_container.hpp, the part the plugin uses) *)

Module json.

#[local] Set Warnings "-register-all".

Inductive Value : Type :=
| Number (q : Q)
| String (s : string)
| Array (values : list Value).

(** [osrm::json::Object] holds an unordered map from key to value. *)
Abbreviation Object := (gmap string Value).

End json.

(** ** Integers of the C++ side *)

(** [NodeID] is an unsigned index. *)
Abbreviation NodeID := nat.

(** [EdgeWeight] and the accumulated distance are [int]. *)
Abbreviation EdgeWeight := Z.

Definition INT_MIN : Z := (- 2147483648)%Z.

Definition INT_MAX : Z := 2147483647%Z.

Definition in_int_range (z : Z) : bool :=
  (INT_MIN <=? z)%Z && (z <=? INT_MAX)%Z.

(** ** Outcome of a computation *)

Inductive Reason : Type :=
| OutOfRange
| EmptyVector
| AssertionFailed
| SignedOverflow.

Inductive Outcome (A : Type) : Type :=
| Done (a : A)
| Undefined (why : Reason).

Arguments Done {A} a.

Arguments Undefined {A} why.

(** The heuristics the dispatcher chooses from. *)
Inductive Heuristic : Type := BF | NN | FI.

#[global] Instance Heuristic_eq_dec : EqDecision Heuristic.
Proof. solve_decision. Defined.

(** * Interfaces

    The data the plugin passes around and the collaborators it calls, over the
    types that other headers declare. *)

Section Interfaces.

(** Types declared in headers outside this file. *)
Context {FixedPointCoordinate PhantomNode UTurns RawRoute : Type}.

(** [PhantomNodes]: the two ends of one leg. *)
Record PhantomNodes : Type := mkPhantomNodes {
  source_phantom : PhantomNode;
  target_phantom : PhantomNode
}.

(** [PhantomNodeArray]: one vector of candidates per waypoint. *)
Abbreviation PhantomNodeArray := (list (list PhantomNode)).

(** [InternalRouteResult]: the fields the plugin reads and writes, and the
    rest of the raw route as one opaque field. *)
Record InternalRouteResult : Type := mkInternalRouteResult {
  segment_end_coordinates : list PhantomNodes;
  shortest_path_length : Z;
  raw_route : RawRoute
}.

Record RouteParameters : Type := mkRouteParameters {
  coordinates : list FixedPointCoordinate;
  hints : list string;
  check_sum : Z;
  tsp_algo : string;
  uturns : UTurns
}.

(** [DistTableWrapper<EdgeWeight>]: the flattened table and the number of
    locations it was built for. *)
Record DistTableWrapper : Type := mkDistTableWrapper {
  table_ : list EdgeWeight;
  number_of_nodes_ : nat
}.

Definition DistTableWrapper_size (t : DistTableWrapper) : nat := length (table_ t).

Definition GetTable (t : DistTableWrapper) : list EdgeWeight := table_ t.

(** Result of a finished [TarjanSCC] run, as the plugin queries it. *)
Record TarjanSCC : Type := mkTarjanSCC {
  get_number_of_components : nat;
  get_component_id : NodeID -> nat
}.

(** ** Collaborators *)

(** The template parameter [DataFacadeT], restricted to what the plugin calls.
    [IncrementalFindPhantomNodeForCoordinate] receives the result vector by
    reference; here it maps the vector before the call to the one after. *)
Class DataFacadeT : Type := {
  GetCheckSum : Z;
  GetNumberOfNodes : nat;
  IncrementalFindPhantomNodeForCoordinate :
    FixedPointCoordinate -> list PhantomNode -> nat -> list PhantomNode
}.

(** [SearchEngine<DataFacadeT>]: the two routing algorithms the plugin uses.
    [shortest_path] receives the route by reference and fills it. *)
Class SearchEngine : Type := {
  distance_table : PhantomNodeArray -> list EdgeWeight;
  shortest_path :
    list PhantomNodes -> UTurns -> InternalRouteResult -> InternalRouteResult
}.

(** Everything else the plugin calls into. *)
Class Collaborators : Type := {
  (* FixedPointCoordinate::is_valid *)
  coordinate_is_valid : FixedPointCoordinate -> bool;
  (* PhantomNode::is_valid(number_of_nodes) *)
  is_valid : PhantomNode -> nat -> bool;
  (* ObjectEncoder::DecodeFromBase64 *)
  DecodeFromBase64 : string -> PhantomNode;
  (* the sentinel weight of typedefs.h *)
  INVALID_EDGE_WEIGHT : EdgeWeight;
  (* TarjanSCC<MatrixGraphWrapper<EdgeWeight>>(wrapper), after run() *)
  scc_run : list EdgeWeight -> nat -> TarjanSCC;
  (* osrm::tsp::* *)
  BruteForceTSP : list NodeID -> nat -> DistTableWrapper -> list NodeID;
  NearestNeighbourTSP : list NodeID -> nat -> DistTableWrapper -> list NodeID;
  FarthestInsertionTSP : list NodeID -> nat -> DistTableWrapper -> list NodeID;
  (* JSONDescriptor::SetConfig followed by Run *)
  descriptor_Run :
    RouteParameters -> InternalRouteResult -> json.Object -> json.Object;
  (* a default-constructed InternalRouteResult, apart from its empty vector of
     segment ends *)
  shortest_path_length_init : Z;
  raw_route_init : RawRoute;
  (* TIMER_MSEC(tsp), read after TIMER_STOP *)
  TIMER_MSEC_tsp : Q;
  (* the implementation's conversion of a double to [float], as the value of
     the result; it takes place where a double is passed for a [float] *)
  to_float : Q -> Q
}.

End Interfaces.

(** * A small network to run the plugin on

    Nodes are numbered; nodes [10 k .. 10 k + 9] form island [k], and there is
    no way from one island to another.  A coordinate snaps to the node whose
    number is its latitude. *)

Module Islands.

Definition Coordinate : Type := Z * Z.

Definition snap (c : Coordinate) : nat := Z.to_nat c.1.

Definition weight (a b : nat) : EdgeWeight :=
  if Nat.eqb (a / 10) (b / 10)
  then Z.abs (Z.of_nat a - Z.of_nat b)
  else INT_MAX.

(** The facade returns the snapped node as the only candidate. *)
#[export] Instance facade : DataFacadeT (FixedPointCoordinate := Coordinate)
                                     (PhantomNode := nat) := {|
  GetCheckSum := 42%Z;
  GetNumberOfNodes := 100;
  IncrementalFindPhantomNodeForCoordinate c v number_of_results := v ++ [snap c]
|}.

(** A facade that returns the snapped node with its two successors. *)
Definition generous_facade : DataFacadeT (FixedPointCoordinate := Coordinate)
                                         (PhantomNode := nat) := {|
  GetCheckSum := 42%Z;
  GetNumberOfNodes := 100;
  IncrementalFindPhantomNodeForCoordinate c v number_of_results :=
    v ++ [snap c; snap c + 1; snap c + 2]
|}.

Definition leg_weight (leg : PhantomNodes (PhantomNode := nat)) : EdgeWeight :=
  weight (source_phantom leg) (target_phantom leg).

#[export] Instance search_engine
  : SearchEngine (PhantomNode := nat) (UTurns := bool) (RawRoute := unit) := {|
  distance_table v :=
    let nodes := omap head v in
    flat_map (fun a => map (weight a) nodes) nodes;
  shortest_path legs u r :=
    {| segment_end_coordinates := legs;
       shortest_path_length := foldr (fun leg acc => (leg_weight leg + acc)%Z) 0%Z legs;
       raw_route := tt |}
|}.

(** Components by mutual reachability in one step, numbered by their smallest
    member; on the tables of this network these are the strongly connected
    components. *)
Definition entry (table : list EdgeWeight) (n i j : nat) : EdgeWeight :=
  nth (i * n + j) table INT_MAX.

Definition mutual (table : list EdgeWeight) (n i j : nat) : bool :=
  negb (entry table n i j =? INT_MAX)%Z && negb (entry table n j i =? INT_MAX)%Z.

Definition representative (table : list EdgeWeight) (n i : nat) : nat :=
  hd i (List.filter (mutual table n i) (seq 0 n)).

Definition scc (table : list EdgeWeight) (n : nat) : TarjanSCC :=
  let leaders :=
    List.filter (fun i => Nat.eqb (representative table n i) i) (seq 0 n) in
  {| get_number_of_components := length leaders;
     get_component_id i :=
       length (List.filter (fun l => Nat.ltb l (representative table n i)) leaders) |}.

(** Conversion to [float] by rounding to 24 significant bits, to nearest and
    ties to even.  The clocks of this network stay within the range of the
    normal numbers of [float], so the exponent is not bounded here. *)
Definition round_half_even (q : Q) : Z :=
  let below := (Qnum q / Zpos (Qden q))%Z in
  match (q - inject_Z below ?= 1 # 2)%Q with
  | Lt => below
  | Gt => (below + 1)%Z
  | Eq => if Z.even below then below else (below + 1)%Z
  end.

(** The [e] with [2 ^ e <= a < 2 ^ (e + 1)], for positive [a]. *)
Definition binade (a : Q) : Z :=
  let e := (Z.log2 (Qnum a) - Z.log2 (Zpos (Qden a)))%Z in
  if Qle_bool (2 ^ e) a then e else (e - 1)%Z.

Definition round_to_float (q : Q) : Q :=
  if Qeq_bool q 0 then 0%Q
  else
    let a := (if Qle_bool 0 q then q else - q)%Q in
    let ulp := (2 ^ (binade a - 23))%Q in
    let significand := inject_Z (round_half_even (a / ulp)) in
    Qred ((if Qle_bool 0 q then significand else - significand) * ulp).

#[export] Instance collaborators
  : Collaborators (FixedPointCoordinate := Coordinate) (PhantomNode := nat)
                  (UTurns := bool) (RawRoute := unit) := {|
  coordinate_is_valid c :=
    (Z.abs c.1 <=? 90000000)%Z && (Z.abs c.2 <=? 180000000)%Z;
  is_valid p number_of_nodes := Nat.ltb p number_of_nodes;
  DecodeFromBase64 hint := String.length hint;
  INVALID_EDGE_WEIGHT := INT_MAX;
  scc_run := scc;
  BruteForceTSP component n table := component;
  NearestNeighbourTSP component n table := component;
  FarthestInsertionTSP component n table := rev component;
  descriptor_Run rp r j :=
    <["via_points"%string :=
        json.Number (inject_Z (Z.of_nat (length (segment_end_coordinates r))))]> j;
  shortest_path_length_init := INT_MAX;
  raw_route_init := tt;
  TIMER_MSEC_tsp := 3%Q;
  to_float := round_to_float
|}.

(** The same collaborators with a clock that reads a tenth of a millisecond,
    which is not a [float]. *)
Definition stopwatch
  : Collaborators (FixedPointCoordinate := Coordinate) (PhantomNode := nat)
                  (UTurns := bool) (RawRoute := unit) := {|
  coordinate_is_valid := coordinate_is_valid (Collaborators := collaborators);
  is_valid := is_valid (Collaborators := collaborators);
  DecodeFromBase64 := DecodeFromBase64 (Collaborators := collaborators);
  INVALID_EDGE_WEIGHT := INVALID_EDGE_WEIGHT (Collaborators := collaborators);
  scc_run := scc_run (Collaborators := collaborators);
  BruteForceTSP := BruteForceTSP (Collaborators := collaborators);
  NearestNeighbourTSP := NearestNeighbourTSP (Collaborators := collaborators);
  FarthestInsertionTSP := FarthestInsertionTSP (Collaborators := collaborators);
  descriptor_Run := descriptor_Run (Collaborators := collaborators);
  shortest_path_length_init :=
    shortest_path_length_init (Collaborators := collaborators);
  raw_route_init := raw_route_init (Collaborators := collaborators);
  TIMER_MSEC_tsp := 1 # 10;
  to_float := round_to_float
|}.

(** Two waypoints on island 0, nearest-neighbour requested. *)
Definition one_island : RouteParameters := {|
  coordinates := [(1, 0)%Z; (5, 0)%Z];
  hints := [];
  check_sum := 42%Z;
  tsp_algo := "NN";
  uturns := false
|}.

(** Three waypoints: two on island 0, one on island 1; the first comes with a
    hint, the checksum matches. *)
Definition two_islands : RouteParameters := {|
  coordinates := [(1, 0)%Z; (12, 0)%Z; (5, 0)%Z];
  hints := ["abc"%string];
  check_sum := 42%Z;
  tsp_algo := "BF";
  uturns := false
|}.

(** Two waypoints on different islands. *)
Definition apart : RouteParameters := {|
  coordinates := [(1, 0)%Z; (12, 0)%Z];
  hints := [];
  check_sum := 42%Z;
  tsp_algo := "FI";
  uturns := false
|}.

(** The second coordinate is not on the globe. *)
Definition off_the_map : RouteParameters := {|
  coordinates := [(1, 0)%Z; (123456789, 0)%Z];
  hints := [];
  check_sum := 42%Z;
  tsp_algo := "NN";
  uturns := false
|}.

(** The distance tables of [one_island] and [two_islands]. *)
Definition table_one_island : DistTableWrapper :=
  mkDistTableWrapper [0; 4; 4; 0]%Z 2.

Definition table_two_islands : DistTableWrapper :=
  mkDistTableWrapper [0; INT_MAX; 2; INT_MAX; 0; INT_MAX; 2; INT_MAX; 0]%Z 3.

(** [two_islands] with the checksum of another data set. *)
Definition stale : RouteParameters := {|
  coordinates := [(1, 0)%Z; (12, 0)%Z; (5, 0)%Z];
  hints := ["abc"%string];
  check_sum := 41%Z;
  tsp_algo := "BF";
  uturns := false
|}.

(** Five waypoints, two on island 0 and three on island 1. *)
Definition two_tours : RouteParameters := {|
  coordinates := [(1, 0)%Z; (12, 0)%Z; (5, 0)%Z; (19, 0)%Z; (15, 0)%Z];
  hints := [];
  check_sum := 42%Z;
  tsp_algo := "NN";
  uturns := false
|}.

(** The object [HandleRequest] answers [two_islands] with. *)
Definition answer_two_islands : json.Object :=
  <["distance"%string := json.Number (inject_Z 4)]>
    (<["via_points"%string := json.Number (inject_Z 2)]>
       (<["runtime"%string := json.Number 3]> ∅)).

(** The object [HandleRequest] answers [two_tours] with. *)
Definition answer_two_tours : json.Object :=
  <["distance"%string := json.Number (inject_Z 22)]>
    (<["via_points"%string := json.Number (inject_Z 3)]>
       (<["runtime"%string := json.Number 3]> ∅)).

End Islands.

(** * The plugin *)

Section RoundTrip.

Context {FixedPointCoordinate PhantomNode UTurns RawRoute : Type}.
Context {facade : @DataFacadeT FixedPointCoordinate PhantomNode}
        {search_engine : @SearchEngine PhantomNode UTurns RawRoute}
        {ext : @Collaborators FixedPointCoordinate PhantomNode UTurns RawRoute}.

#[local] Abbreviation PhantomNodes := (@PhantomNodes PhantomNode).
#[local] Abbreviation PhantomNodeArray := (list (list PhantomNode)).
#[local] Abbreviation InternalRouteResult :=
  (@InternalRouteResult PhantomNode RawRoute).
#[local] Abbreviation RouteParameters :=
  (@RouteParameters FixedPointCoordinate UTurns).

(** ** Trace of calls *)

Inductive Event : Type :=
| EvDecodeFromBase64 (hint : string)
| EvIncrementalFind (i : nat) (c : FixedPointCoordinate) (number_of_results : nat)
| EvDistanceTable (phantom_node_vector : PhantomNodeArray)
| EvTarjanRun (number_of_locations : nat)
| EvTSP (h : Heuristic) (component : list NodeID)
| EvShortestPath (legs : list PhantomNodes) (u : UTurns)
| EvDescriptorRun (r : InternalRouteResult)
| EvLog (msg : string)
| EvLogRuntime (msec : Q).

(** A computation yields the calls it made and how it ended. *)
Definition M (A : Type) : Type := list Event * Outcome A.

#[global] Instance M_ret : MRet M := fun A a => ([], Done a).

#[global] Instance M_bind : MBind M := fun A B f m =>
  match m with
  | (t, Done a) => (t ++ (f a).1, (f a).2)
  | (t, Undefined why) => (t, Undefined why)
  end.

Definition emit (e : Event) : M unit := ([e], Done ()).

Definition undefined {A} (why : Reason) : M A := ([], Undefined why).

(** [v[i]] *)
Definition at_ {A} (v : list A) (i : nat) : M A :=
  match v !! i with
  | Some x => mret x
  | None => undefined OutOfRange
  end.

(** [v.front()] *)
Definition front {A} (v : list A) : M A :=
  match v with
  | x :: _ => mret x
  | [] => undefined EmptyVector
  end.

(** [v.back()] *)
Definition back {A} (v : list A) : M A :=
  match last v with
  | Some x => mret x
  | None => undefined EmptyVector
  end.

(** [*std::max_element(v.begin(), v.end())] *)
Definition max_element (v : list Z) : M Z :=
  match v with
  | x :: v' => mret (foldl Z.max x v')
  | [] => undefined EmptyVector
  end.

(** [BOOST_ASSERT(b)] *)
Definition BOOST_ASSERT (b : bool) : M unit :=
  if b then mret () else undefined AssertionFailed.

(** [for (x : l) s = body(x, s)] *)
Fixpoint for_each {A S} (body : A -> S -> M S) (l : list A) (s : S) : M S :=
  match l with
  | [] => mret s
  | x :: l' => s' ← body x s; for_each body l' s'
  end.

(** [int] addition; overflow is undefined. *)
Definition int_add (a b : Z) : M Z :=
  if in_int_range (a + b)%Z then mret (a + b)%Z else undefined SignedOverflow.

(** ** GetPhantomNodes *)

(** [v.erase(v.begin())] guarded by [v.size() > 1]. *)
Definition erase_first_if_many (v : list PhantomNode) : list PhantomNode :=
  if bool_decide (1 < length v) then tail v else v.

(** One iteration of the loop over the coordinates.  The inner computation
    yields [Some] of the updated array where the source says [continue]. *)
Definition GetPhantomNodes_body (route_parameters : RouteParameters)
    (checksum_OK : bool) (i : nat) (phantom_node_vector : PhantomNodeArray)
    : M PhantomNodeArray :=
  hinted ←
    (if checksum_OK && bool_decide (i < length (hints route_parameters)) then
       hint ← at_ (hints route_parameters) i;
       if negb (String.eqb hint "") then
         _ ← emit (EvDecodeFromBase64 hint);
         let current_phantom_node := DecodeFromBase64 hint in
         if is_valid current_phantom_node GetNumberOfNodes then
           slot ← at_ phantom_node_vector i;
           mret (Some (<[i := slot ++ [current_phantom_node]]> phantom_node_vector))
         else mret None
       else mret None
     else mret None);
  match hinted with
  | Some phantom_node_vector' => mret phantom_node_vector'
  | None =>
      c ← at_ (coordinates route_parameters) i;
      slot ← at_ phantom_node_vector i;
      _ ← emit (EvIncrementalFind i c 1);
      let found := IncrementalFindPhantomNodeForCoordinate c slot 1 in
      let kept := erase_first_if_many found in
      first ← front kept;
      _ ← BOOST_ASSERT (is_valid first GetNumberOfNodes);
      mret (<[i := kept]> phantom_node_vector)
  end.

Definition GetPhantomNodes (route_parameters : RouteParameters)
    (phantom_node_vector : PhantomNodeArray) : M PhantomNodeArray :=
  let checksum_OK := bool_decide (check_sum route_parameters = GetCheckSum) in
  for_each (GetPhantomNodes_body route_parameters checksum_OK)
           (seq 0 (length (coordinates route_parameters)))
           phantom_node_vector.

(** ** SplitUnaccessibleLocations *)

Definition SplitUnaccessibleLocations (number_of_locations : nat)
    (result_table : DistTableWrapper) (components : list (list NodeID))
    : M (list (list NodeID)) :=
  _ ← emit (EvTarjanRun number_of_locations);
  let scc := scc_run (GetTable result_table) number_of_locations in
  components ← for_each (fun (j : nat) components => mret (components ++ [[]]))
                        (seq 0 (get_number_of_components scc)) components;
  for_each (fun (i : nat) components =>
              let id := get_component_id scc i in
              component ← at_ components id;
              mret (<[id := component ++ [i]]> components))
           (seq 0 number_of_locations) components.

(** ** Output helpers *)

Definition SetLocPermutationOutput (loc_permutation : list nat)
    (json_result : json.Object) : json.Object :=
  let json_loc_permutation :=
    [] ++ map (fun n => json.Number (inject_Z (Z.of_nat n))) loc_permutation in
  <["loc_permutation"%string := json.Array json_loc_permutation]> json_result.

Definition SetDistanceOutput (distance : Z) (json_result : json.Object)
    : json.Object :=
  <["distance"%string := json.Number (inject_Z distance)]> json_result.

(** The parameter is [const float runtime]: whatever the caller passes arrives
    converted to [float]. *)
Definition SetRuntimeOutput (runtime : Q) (json_result : json.Object)
    : json.Object :=
  let runtime := to_float runtime in
  <["runtime"%string := json.Number runtime]> json_result.

Definition SetGeometry (route_parameters : RouteParameters)
    (min_route : InternalRouteResult) (json_result : json.Object)
    : M json.Object :=
  _ ← emit (EvDescriptorRun min_route);
  mret (descriptor_Run route_parameters min_route json_result).

(** ** ComputeRoute *)

(** [phantom_node_vector[n][0]] *)
Definition phantom_of (phantom_node_vector : PhantomNodeArray) (n : NodeID)
    : M PhantomNode :=
  candidates ← at_ phantom_node_vector n; at_ candidates 0.

Definition emplace_back_leg (min_route : InternalRouteResult)
    (viapoint : PhantomNodes) : InternalRouteResult :=
  {| segment_end_coordinates := segment_end_coordinates min_route ++ [viapoint];
     shortest_path_length := shortest_path_length min_route;
     raw_route := raw_route min_route |}.

(** The loop [for (it = begin(trip); it != prev(end(trip)); ++it)].  On an
    empty trip [prev(end(trip))] steps before [begin]. *)
Fixpoint ComputeRoute_loop (phantom_node_vector : PhantomNodeArray)
    (trip : list NodeID) (min_route : InternalRouteResult)
    : M InternalRouteResult :=
  match trip with
  | [] => undefined EmptyVector
  | from_node :: rest =>
      match rest with
      | [] => mret min_route
      | to_node :: _ =>
          from ← phantom_of phantom_node_vector from_node;
          to ← phantom_of phantom_node_vector to_node;
          let viapoint := mkPhantomNodes from to in
          ComputeRoute_loop phantom_node_vector rest
                            (emplace_back_leg min_route viapoint)
      end
  end.

(** The overload for one trip. *)
Definition ComputeRoute (phantom_node_vector : PhantomNodeArray)
    (route_parameters : RouteParameters) (trip : list NodeID)
    (min_route : InternalRouteResult) : M InternalRouteResult :=
  min_route ← ComputeRoute_loop phantom_node_vector trip min_route;
  (* check dist between last and first location too *)
  last_node ← back trip;
  from ← phantom_of phantom_node_vector last_node;
  first_node ← front trip;
  to ← phantom_of phantom_node_vector first_node;
  let viapoint := mkPhantomNodes from to in
  let min_route := emplace_back_leg min_route viapoint in
  _ ← emit (EvShortestPath (segment_end_coordinates min_route)
                           (uturns route_parameters));
  mret (shortest_path (segment_end_coordinates min_route)
                      (uturns route_parameters) min_route).

Definition InternalRouteResult_default : InternalRouteResult :=
  {| segment_end_coordinates := [];
     shortest_path_length := shortest_path_length_init;
     raw_route := raw_route_init |}.

(** The overload for all trips. *)
Definition ComputeRoutes (phantom_node_vector : PhantomNodeArray)
    (route_parameters : RouteParameters) (trip : list (list NodeID))
    (route : list InternalRouteResult) : M (list InternalRouteResult) :=
  for_each (fun curr_trip route =>
              let curr_route := InternalRouteResult_default in
              curr_route ← ComputeRoute phantom_node_vector route_parameters
                                        curr_trip curr_route;
              (* route.push_back(curr_route), then the call on route.back() *)
              _ ← emit (EvShortestPath (segment_end_coordinates curr_route)
                                       (uturns route_parameters));
              mret (route ++ [shortest_path (segment_end_coordinates curr_route)
                                            (uturns route_parameters) curr_route]))
           trip route.

(** ** HandleRequest *)

(** Modelled from the spec: [check_all_coordinates] of plugin_base.hpp is not
    part of this file; the request is rejected if any coordinate entry fails
    basic validation. *)
Definition check_all_coordinates (coords : list FixedPointCoordinate) : bool :=
  forallb coordinate_is_valid coords.

Definition BF_MAX_FEASABLE : nat := 10.

(** The body of the loop over the components. *)
Definition HandleRequest_tsp (route_parameters : RouteParameters)
    (number_of_locations : nat) (result_table : DistTableWrapper)
    (component : list NodeID) (res_route : list (list NodeID))
    : M (list (list NodeID)) :=
  if bool_decide (1 < length component) then
    if String.eqb (tsp_algo route_parameters) "BF"
       && bool_decide (length (coordinates route_parameters) < BF_MAX_FEASABLE)
    then
      _ ← emit (EvLog "Running brute force");
      _ ← emit (EvTSP BF component);
      let scc_route := BruteForceTSP component number_of_locations result_table in
      mret (res_route ++ [scc_route])
    else if String.eqb (tsp_algo route_parameters) "NN" then
      _ ← emit (EvLog "Running nearest neighbour");
      _ ← emit (EvTSP NN component);
      let scc_route := NearestNeighbourTSP component number_of_locations result_table in
      mret (res_route ++ [scc_route])
    else if String.eqb (tsp_algo route_parameters) "FI" then
      _ ← emit (EvLog "Running farthest insertion");
      _ ← emit (EvTSP FI component);
      let scc_route := FarthestInsertionTSP component number_of_locations result_table in
      mret (res_route ++ [scc_route])
    else
      _ ← emit (EvLog "Running farthest insertion");
      _ ← emit (EvTSP FI component);
      let scc_route := FarthestInsertionTSP component number_of_locations result_table in
      mret (res_route ++ [scc_route])
  else mret res_route.

(** The choice between the SCC computation and the single component. *)
Definition HandleRequest_components (number_of_locations : nat)
    (result_table : DistTableWrapper) (components : list (list NodeID))
    : M (list (list NodeID)) :=
  let maxint := INVALID_EDGE_WEIGHT in
  largest ← max_element (table_ result_table);
  if bool_decide (largest = maxint) then
    SplitUnaccessibleLocations number_of_locations result_table components
  else
    let location_ids := seq 0 number_of_locations in
    mret (components ++ [location_ids]).

(** The loop that sums the lengths and renders each route. *)
Definition HandleRequest_aggregate (route_parameters : RouteParameters)
    (curr_route : InternalRouteResult) (acc : Z * json.Object)
    : M (Z * json.Object) :=
  dist ← int_add acc.1 (shortest_path_length curr_route);
  json_result ← SetGeometry route_parameters curr_route acc.2;
  mret (dist, json_result).

(** [PhantomNodeArray phantom_node_vector(coordinates.size())]: one empty
    vector per coordinate. *)
Definition fresh_array (route_parameters : RouteParameters) : PhantomNodeArray :=
  replicate (length (coordinates route_parameters)) [].

Definition HandleRequest (route_parameters : RouteParameters)
    (json_result : json.Object) : M (Z * json.Object) :=
  if negb (check_all_coordinates (coordinates route_parameters)) then
    mret (400%Z, json_result)
  else
    let phantom_node_vector := fresh_array route_parameters in
    phantom_node_vector ← GetPhantomNodes route_parameters phantom_node_vector;
    let number_of_locations := length phantom_node_vector in
    _ ← emit (EvDistanceTable phantom_node_vector);
    let result_table :=
      mkDistTableWrapper (distance_table phantom_node_vector) number_of_locations in
    if bool_decide (DistTableWrapper_size result_table = 0) then
      mret (400%Z, json_result)
    else
      _ ← BOOST_ASSERT (bool_decide (0 < DistTableWrapper_size result_table));
      components ← HandleRequest_components number_of_locations result_table [];
      res_route ← for_each (HandleRequest_tsp route_parameters number_of_locations
                                              result_table) components [];
      route ← ComputeRoutes phantom_node_vector route_parameters res_route [];
      let json_result := SetRuntimeOutput TIMER_MSEC_tsp json_result in
      _ ← emit (EvLogRuntime TIMER_MSEC_tsp);
      '(dist, json_result) ←
        for_each (HandleRequest_aggregate route_parameters) route (0%Z, json_result);
      mret (200%Z, SetDistanceOutput dist json_result).

(** * Definitions for the properties *)

(** ** Location resolution *)

(** The hint of waypoint [i], when the loop of [GetPhantomNodes] decodes it:
    the checksums agree and a non-empty hint is present. *)
Definition decoded_hint (route_parameters : RouteParameters) (i : nat)
    : option string :=
  if bool_decide (check_sum route_parameters = GetCheckSum) then
    match hints route_parameters !! i with
    | Some hint => if String.eqb hint "" then None else Some hint
    | None => None
    end
  else None.

(** The hint of waypoint [i], when it is decoded and the decoded node is valid
    for the current network. *)
Definition usable_hint (route_parameters : RouteParameters) (i : nat)
    : option string :=
  match decoded_hint route_parameters i with
  | Some hint =>
      if is_valid (DecodeFromBase64 hint) GetNumberOfNodes then Some hint else None
  | None => None
  end.

Definition decode_events (route_parameters : RouteParameters) (i : nat)
    : list Event :=
  match decoded_hint route_parameters i with
  | Some hint => [EvDecodeFromBase64 hint]
  | None => []
  end.

(** How the search branch ends, given the vector the search left behind. *)
Definition search_outcome (i : nat) (found : list PhantomNode)
    (phantom_node_vector : PhantomNodeArray) : Outcome PhantomNodeArray :=
  match erase_first_if_many found with
  | [] => Undefined EmptyVector
  | first :: _ =>
      if is_valid first GetNumberOfNodes
      then Done (<[i := erase_first_if_many found]> phantom_node_vector)
      else Undefined AssertionFailed
  end.

(** What waypoint [i] retains, given its coordinate and the content of its slot
    before the loop reaches it. *)
Definition resolved (route_parameters : RouteParameters) (i : nat)
    (c : FixedPointCoordinate) (slot : list PhantomNode) : list PhantomNode :=
  match usable_hint route_parameters i with
  | Some hint => slot ++ [DecodeFromBase64 hint]
  | None => erase_first_if_many (IncrementalFindPhantomNodeForCoordinate c slot 1)
  end.

(** The search left a valid candidate at the front of the slot. *)
Definition front_is_valid (slot : list PhantomNode) : Prop :=
  exists first, head slot = Some first /\ is_valid first GetNumberOfNodes = true.

(** What the facade owes the resolver: a search for a waypoint that cannot
    reuse its hint leaves a valid candidate at the front. *)
Definition facade_finds (route_parameters : RouteParameters) : Prop :=
  forall i c, coordinates route_parameters !! i = Some c ->
    usable_hint route_parameters i = None ->
    front_is_valid
      (erase_first_if_many (IncrementalFindPhantomNodeForCoordinate c [] 1)).

(** ** Which calls a part of the pipeline makes *)

(** Every call in the trace of [m] satisfies [P]. *)
Definition only {A} (P : Event -> Prop) (m : M A) : Prop := Forall P m.1.

(** The calls of the Location Resolver. *)
Definition resolution_event (e : Event) : Prop :=
  match e with
  | EvDecodeFromBase64 _ | EvIncrementalFind _ _ _ => True
  | _ => False
  end.

(** ** Connectivity partitioning *)

(** The members of component [c] among the locations [m, m + n), ascending. *)
Definition members (scc : TarjanSCC) (m n : nat) (c : nat) : list NodeID :=
  filter (fun i => get_component_id scc i = c) (seq m n).

(** The SCC run numbers every location with a component that exists. *)
Definition scc_ids_in_range (scc : TarjanSCC) (number_of_locations : nat) : Prop :=
  forall i, i < number_of_locations ->
    get_component_id scc i < get_number_of_components scc.

(** Every component the SCC run counts has a location. *)
Definition scc_ids_onto (scc : TarjanSCC) (number_of_locations : nat) : Prop :=
  forall c, c < get_number_of_components scc ->
    exists i, i < number_of_locations /\ get_component_id scc i = c.

(** A strict partition of the indices below [n]. *)
Record strict_partition (n : nat) (components : list (list NodeID)) : Prop := {
  partition_nonempty : forall component, component ∈ components -> component <> [];
  partition_covers :
    forall i, i < n <-> exists component, component ∈ components /\ i ∈ component;
  partition_disjoint :
    forall j k cj ck i,
      components !! j = Some cj -> components !! k = Some ck ->
      i ∈ cj -> i ∈ ck -> j = k;
  partition_once : forall component, component ∈ components -> NoDup component
}.

(** ** Route stitching *)

(** The candidate [phantom_node_vector[n][0]], if there is one. *)
Definition first_candidate (phantom_node_vector : PhantomNodeArray) (n : NodeID)
    : option PhantomNode :=
  match phantom_node_vector !! n with
  | Some (p :: _) => Some p
  | _ => None
  end.

(** The candidates of a trip's waypoints, in the order of the trip. *)
Definition trip_phantoms (phantom_node_vector : PhantomNodeArray)
    (trip : list NodeID) (ps : list PhantomNode) : Prop :=
  Forall2 (fun n p => first_candidate phantom_node_vector n = Some p) trip ps.

(** The legs between consecutive stops, and the leg that closes the cycle. *)
Definition consecutive_legs (ps : list PhantomNode) : list PhantomNodes :=
  zip_with mkPhantomNodes ps (tail ps).

Definition closing_leg (ps : list PhantomNode) : list PhantomNodes :=
  match last ps, head ps with
  | Some from, Some to => [mkPhantomNodes from to]
  | _, _ => []
  end.

Definition tour_legs (ps : list PhantomNode) : list PhantomNodes :=
  consecutive_legs ps ++ closing_leg ps.

Definition add_legs (min_route : InternalRouteResult) (legs : list PhantomNodes)
    : InternalRouteResult :=
  {| segment_end_coordinates := segment_end_coordinates min_route ++ legs;
     shortest_path_length := shortest_path_length min_route;
     raw_route := raw_route min_route |}.

(** The route of one trip, after both queries of [ComputeRoutes]. *)
Definition first_query (route_parameters : RouteParameters)
    (ps : list PhantomNode) : InternalRouteResult :=
  shortest_path (tour_legs ps) (uturns route_parameters)
                (add_legs InternalRouteResult_default (tour_legs ps)).

Definition stitched (route_parameters : RouteParameters)
    (ps : list PhantomNode) : InternalRouteResult :=
  let curr_route := first_query route_parameters ps in
  shortest_path (segment_end_coordinates curr_route) (uturns route_parameters)
                curr_route.

Definition stitch_events (route_parameters : RouteParameters)
    (ps : list PhantomNode) : list Event :=
  [EvShortestPath (tour_legs ps) (uturns route_parameters);
   EvShortestPath (segment_end_coordinates (first_query route_parameters ps))
                  (uturns route_parameters)].

(** Non-empty trips over waypoints that have candidates. *)
Definition trips_phantoms (phantom_node_vector : PhantomNodeArray)
    (trips : list (list NodeID)) (pss : list (list PhantomNode)) : Prop :=
  Forall2 (fun trip ps => trip <> [] /\ trip_phantoms phantom_node_vector trip ps)
          trips pss.

(** ** Heuristic dispatch *)

(** The heuristic the chain of conditions in [HandleRequest] ends in. *)
Definition chosen_heuristic (route_parameters : RouteParameters) : Heuristic :=
  if String.eqb (tsp_algo route_parameters) "BF"
     && bool_decide (length (coordinates route_parameters) < BF_MAX_FEASABLE)
  then BF
  else if String.eqb (tsp_algo route_parameters) "NN" then NN
  else FI.

Definition run_heuristic (h : Heuristic) (component : list NodeID)
    (number_of_locations : nat) (result_table : DistTableWrapper) : list NodeID :=
  match h with
  | BF => BruteForceTSP component number_of_locations result_table
  | NN => NearestNeighbourTSP component number_of_locations result_table
  | FI => FarthestInsertionTSP component number_of_locations result_table
  end.

Definition heuristic_log (h : Heuristic) : string :=
  match h with
  | BF => "Running brute force"
  | NN => "Running nearest neighbour"
  | FI => "Running farthest insertion"
  end.

Definition tsp_events_of (route_parameters : RouteParameters)
    (component : list NodeID) : list Event :=
  if bool_decide (1 < length component) then
    [EvLog (heuristic_log (chosen_heuristic route_parameters));
     EvTSP (chosen_heuristic route_parameters) component]
  else [].

Definition tsp_events (route_parameters : RouteParameters)
    (components : list (list NodeID)) : list Event :=
  concat (map (tsp_events_of route_parameters) components).

(** The tours: one for every component with more than one location. *)
Definition tours_of (route_parameters : RouteParameters)
    (number_of_locations : nat) (result_table : DistTableWrapper)
    (components : list (list NodeID)) : list (list NodeID) :=
  map (fun component =>
         run_heuristic (chosen_heuristic route_parameters) component
                       number_of_locations result_table)
      (filter (fun component => 1 < length component) components).

(** ** Aggregation *)

Definition total_length (routes : list InternalRouteResult) : Z :=
  foldr (fun r acc => (shortest_path_length r + acc)%Z) 0%Z routes.

Definition rendered (route_parameters : RouteParameters)
    (routes : list InternalRouteResult) (json_result : json.Object)
    : json.Object :=
  foldl (fun json_result r => descriptor_Run route_parameters r json_result)
        json_result routes.

(** Every partial sum of the route lengths, starting from [dist], is an [int]. *)
Fixpoint sums_in_range (dist : Z) (routes : list InternalRouteResult) : Prop :=
  match routes with
  | [] => True
  | r :: routes' =>
      in_int_range (dist + shortest_path_length r) = true /\
      sums_in_range (dist + shortest_path_length r) routes'
  end.

(** ** The request as a whole *)

(** The ways a request ends with a status: trace, status and result object. *)
Inductive handled (route_parameters : RouteParameters) (json_result : json.Object)
    : list Event -> Z -> json.Object -> Prop :=
| handled_invalid_input :
    check_all_coordinates (coordinates route_parameters) = false ->
    handled route_parameters json_result [] 400%Z json_result
| handled_empty_table (t_resolve : list Event) (v : PhantomNodeArray) :
    check_all_coordinates (coordinates route_parameters) = true ->
    GetPhantomNodes route_parameters (fresh_array route_parameters)
      = (t_resolve, Done v) ->
    distance_table v = [] ->
    handled route_parameters json_result
            (t_resolve ++ [EvDistanceTable v]) 400%Z json_result
| handled_round_trip (t_resolve t_split t_stitch : list Event)
    (v : PhantomNodeArray) (components : list (list NodeID))
    (routes : list InternalRouteResult) :
    let result_table := mkDistTableWrapper (distance_table v) (length v) in
    check_all_coordinates (coordinates route_parameters) = true ->
    GetPhantomNodes route_parameters (fresh_array route_parameters)
      = (t_resolve, Done v) ->
    distance_table v <> [] ->
    HandleRequest_components (length v) result_table []
      = (t_split, Done components) ->
    ComputeRoutes v route_parameters
      (tours_of route_parameters (length v) result_table components) []
      = (t_stitch, Done routes) ->
    sums_in_range 0 routes ->
    handled route_parameters json_result
      (t_resolve ++ [EvDistanceTable v] ++ t_split
       ++ tsp_events route_parameters components ++ t_stitch
       ++ [EvLogRuntime TIMER_MSEC_tsp] ++ map EvDescriptorRun routes)
      200%Z
      (SetDistanceOutput (total_length routes)
         (rendered route_parameters routes
                   (SetRuntimeOutput TIMER_MSEC_tsp json_result))).

(** The loop body of the dispatcher runs heuristic [h] on [component]: it logs
    the choice, calls [h] and appends the tour [h] returns. *)
Definition runs (h : Heuristic) (route_parameters : RouteParameters)
    (number_of_locations : nat) (result_table : DistTableWrapper)
    (component : list NodeID) (res_route : list (list NodeID)) : Prop :=
  HandleRequest_tsp route_parameters number_of_locations result_table
                    component res_route
  = ([EvLog (heuristic_log h); EvTSP h component],
     Done (res_route
           ++ [run_heuristic h component number_of_locations result_table])).

(** ** Cost per component *)

(** The candidates of a trip's waypoints, as far as they exist. *)
Definition phantoms_of (phantom_node_vector : PhantomNodeArray)
    (trip : list NodeID) : list PhantomNode :=
  omap (first_candidate phantom_node_vector) trip.

(** The route [HandleRequest] computes for a component with a tour. *)
Definition component_route (route_parameters : RouteParameters)
    (phantom_node_vector : PhantomNodeArray) (result_table : DistTableWrapper)
    (component : list NodeID) : InternalRouteResult :=
  stitched route_parameters
    (phantoms_of phantom_node_vector
       (run_heuristic (chosen_heuristic route_parameters) component
                      (length phantom_node_vector) result_table)).

(** What a component adds to the distance: the length of its route if it has
    more than one location, nothing otherwise. *)
Definition component_cost (route_parameters : RouteParameters)
    (phantom_node_vector : PhantomNodeArray) (result_table : DistTableWrapper)
    (component : list NodeID) : Z :=
  if bool_decide (1 < length component)
  then shortest_path_length
         (component_route route_parameters phantom_node_vector result_table
                          component)
  else 0%Z.

Definition sum_of_costs (route_parameters : RouteParameters)
    (phantom_node_vector : PhantomNodeArray) (result_table : DistTableWrapper)
    (components : list (list NodeID)) : Z :=
  foldr (fun component acc =>
           (component_cost route_parameters phantom_node_vector result_table
                           component + acc)%Z)
        0%Z components.

(** The routes of all components that have a tour. *)
Definition round_trip_routes (route_parameters : RouteParameters)
    (phantom_node_vector : PhantomNodeArray) (result_table : DistTableWrapper)
    (components : list (list NodeID)) : list InternalRouteResult :=
  map (component_route route_parameters phantom_node_vector result_table)
      (filter (fun component => 1 < length component) components).

(** ** Shortest-path queries *)

(** The shortest-path queries in a trace, by the legs they were given. *)
Definition shortest_path_queries (t : list Event) : list (list PhantomNodes) :=
  omap (fun e => match e with
                 | EvShortestPath legs _ => Some legs
                 | _ => None
                 end) t.

Definition not_a_query (e : Event) : Prop :=
  match e with
  | EvShortestPath _ _ => False
  | _ => True
  end.

(** The calls of the Connectivity Partitioner. *)
Definition partition_event (e : Event) : Prop :=
  match e with
  | EvTarjanRun _ => True
  | _ => False
  end.

(** ** Collaborators that keep their contracts *)

(** What the handler relies on once the locations are resolved: the SCC run
    numbers every location with an existing component, each heuristic returns
    a permutation of the component it is given, and the running sum of the
    route lengths stays within [int]. *)
Definition collaborators_behave (route_parameters : RouteParameters)
    (v : PhantomNodeArray) : Prop :=
  let result_table := mkDistTableWrapper (distance_table v) (length v) in
  scc_ids_in_range (scc_run (distance_table v) (length v)) (length v) /\
  (forall component, 1 < length component ->
     run_heuristic (chosen_heuristic route_parameters) component (length v)
                   result_table ≡ₚ component) /\
  (forall t components,
     HandleRequest_components (length v) result_table [] = (t, Done components) ->
     sums_in_range 0 (round_trip_routes route_parameters v result_table components)).

(** ** Traces and shapes for the further properties *)

(** The calls [GetPhantomNodes] makes for waypoint [i] with coordinate [c]:
    the decoding of its hint, if any, then the search unless the hint is
    usable. *)
Definition waypoint_events (route_parameters : RouteParameters) (i : nat)
    (c : FixedPointCoordinate) : list Event :=
  decode_events route_parameters i
  ++ match usable_hint route_parameters i with
     | Some _ => []
     | None => [EvIncrementalFind i c 1]
     end.

(** The heuristic calls in a trace. *)
Definition tsp_calls (t : list Event) : list (Heuristic * list NodeID) :=
  omap (fun e => match e with
                 | EvTSP h component => Some (h, component)
                 | _ => None
                 end) t.

(** The stage of [HandleRequest] a call belongs to: resolution, the distance
    table, the SCC run, the heuristics with their log lines, the shortest-path
    queries, the log line with the run time, the rendering. *)
Definition phase (e : Event) : nat :=
  match e with
  | EvDecodeFromBase64 _ | EvIncrementalFind _ _ _ => 0
  | EvDistanceTable _ => 1
  | EvTarjanRun _ => 2
  | EvLog _ | EvTSP _ _ => 3
  | EvShortestPath _ _ => 4
  | EvLogRuntime _ => 5
  | EvDescriptorRun _ => 6
  end.

(** No call of the trace belongs to an earlier stage than a call before it. *)
Fixpoint in_phase_order (t : list Event) : Prop :=
  match t with
  | [] => True
  | e :: t' => Forall (fun later => phase e <= phase later) t' /\ in_phase_order t'
  end.

(** * Properties *)

(** ** The monad *)

Lemma bind_Done {A B} (f : A -> M B) (t : list Event) (a : A) :
  ((t, Done a) ≫= f) = (t ++ (f a).1, (f a).2).
Proof. reflexivity. Qed.

Lemma bind_Undefined {A B} (f : A -> M B) (t : list Event) (why : Reason) :
  ((t, Undefined why) : M A) ≫= f = (t, Undefined why).
Proof. reflexivity. Qed.

Lemma bind_mret {A B} (f : A -> M B) (a : A) : (mret a ≫= f) = f a.
Proof. unfold mret, M_ret. rewrite bind_Done. destruct (f a); reflexivity. Qed.

Lemma bind_emit {B} (f : unit -> M B) (e : Event) :
  (emit e ≫= f) = (e :: (f ()).1, (f ()).2).
Proof. unfold emit. rewrite bind_Done. reflexivity. Qed.

(** A bind that ends well is made of two parts that end well. *)
Lemma bind_inv_Done {A B} (m : M A) (f : A -> M B) (t : list Event) (b : B) :
  (m ≫= f) = (t, Done b) ->
  exists t1 a t2, m = (t1, Done a) /\ f a = (t2, Done b) /\ t = t1 ++ t2.
Proof.
  destruct m as [t1 [a | why]]; [| discriminate].
  rewrite bind_Done. destruct (f a) as [t2 r] eqn:E. simpl.
  intros [= <- ->]. eauto 6.
Qed.

Lemma bind_run {A B} (m : M A) (f : A -> M B) (t1 t2 : list Event) (a : A)
    (r : Outcome B) :
  m = (t1, Done a) -> f a = (t2, r) -> (m ≫= f) = (t1 ++ t2, r).
Proof. intros -> Hf. rewrite bind_Done, Hf. reflexivity. Qed.

Lemma at_Some {A} (v : list A) (i : nat) (x : A) :
  v !! i = Some x -> at_ v i = mret x.
Proof. unfold at_. intros ->. reflexivity. Qed.

Lemma at_inv_Done {A} (v : list A) (i : nat) (t : list Event) (x : A) :
  at_ v i = (t, Done x) -> v !! i = Some x /\ t = [].
Proof.
  unfold at_. destruct (v !! i); [| discriminate].
  intros [= <- ->]. auto.
Qed.

Lemma for_each_app {A S} (body : A -> S -> M S) (l1 l2 : list A) (s : S) :
  for_each body (l1 ++ l2) s = (for_each body l1 s ≫= for_each body l2).
Proof.
  revert s. induction l1 as [| x l1 IH]; intros s.
  - change (for_each body l2 s = (mret s ≫= for_each body l2)).
    rewrite bind_mret. reflexivity.
  - change (for_each body ((x :: l1) ++ l2) s)
      with (body x s ≫= for_each body (l1 ++ l2)).
    change (for_each body (x :: l1) s) with (body x s ≫= for_each body l1).
    destruct (body x s) as [t [s' | why]]; [| reflexivity].
    rewrite !bind_Done, IH.
    destruct (for_each body l1 s') as [t1 [s1 | why1]]; [| reflexivity].
    rewrite !bind_Done. simpl. rewrite app_assoc. reflexivity.
Qed.

(** ** Location resolution *)

Lemma usable_hint_Some (route_parameters : RouteParameters) (i : nat) (hint : string) :
  usable_hint route_parameters i = Some hint <->
  check_sum route_parameters = GetCheckSum /\
  hints route_parameters !! i = Some hint /\ hint <> ""%string /\
  is_valid (DecodeFromBase64 hint) GetNumberOfNodes = true.
Proof.
  unfold usable_hint, decoded_hint. case_bool_decide as Hsum.
  - destruct (hints route_parameters !! i) as [h |] eqn:Hh.
    + destruct (String.eqb_spec h "") as [-> | Hne].
      * split; [discriminate |]. intros (_ & [= <-] & Hne & _). congruence.
      * destruct (is_valid (DecodeFromBase64 h) GetNumberOfNodes) eqn:Hv.
        -- split; [intros [= <-]; auto |]. intros (_ & [= <-] & _). reflexivity.
        -- split; [discriminate |]. intros (_ & [= <-] & _ & Hv'). congruence.
    + split; [discriminate |]. intros (_ & [=] & _).
  - split; [discriminate |]. intros (Hsum' & _). contradiction.
Qed.

(** The hint branch of the loop body. *)
Lemma GetPhantomNodes_body_hint (route_parameters : RouteParameters) (i : nat)
    (phantom_node_vector : PhantomNodeArray) (hint : string)
    (slot : list PhantomNode) :
  usable_hint route_parameters i = Some hint ->
  phantom_node_vector !! i = Some slot ->
  GetPhantomNodes_body route_parameters
    (bool_decide (check_sum route_parameters = GetCheckSum)) i phantom_node_vector
  = ([EvDecodeFromBase64 hint],
     Done (<[i := slot ++ [DecodeFromBase64 hint]]> phantom_node_vector)).
Proof.
  intros Hu Hslot. apply usable_hint_Some in Hu as (Hsum & Hh & Hne & Hv).
  unfold GetPhantomNodes_body.
  rewrite (bool_decide_eq_true_2 _ Hsum).
  rewrite (bool_decide_eq_true_2 (i < length (hints route_parameters)));
    [| eapply lookup_lt_Some; eassumption].
  simpl andb. cbv iota.
  rewrite (at_Some _ _ _ Hh), bind_mret.
  destruct (String.eqb_spec hint "") as [-> | _]; [congruence |].
  simpl negb. cbv iota.
  rewrite bind_emit, Hv, (at_Some _ _ _ Hslot), bind_mret.
  reflexivity.
Qed.

(** The search branch of the loop body. *)
Lemma GetPhantomNodes_body_search (route_parameters : RouteParameters) (i : nat)
    (phantom_node_vector : PhantomNodeArray) (c : FixedPointCoordinate)
    (slot : list PhantomNode) :
  usable_hint route_parameters i = None ->
  coordinates route_parameters !! i = Some c ->
  phantom_node_vector !! i = Some slot ->
  GetPhantomNodes_body route_parameters
    (bool_decide (check_sum route_parameters = GetCheckSum)) i phantom_node_vector
  = (decode_events route_parameters i ++ [EvIncrementalFind i c 1],
     search_outcome i (IncrementalFindPhantomNodeForCoordinate c slot 1)
                    phantom_node_vector).
Proof.
  intros Hu Hc Hslot.
  assert (Hsearch :
    (mret None ≫= fun hinted : option PhantomNodeArray =>
       match hinted with
       | Some phantom_node_vector' => mret phantom_node_vector'
       | None =>
           c ← at_ (coordinates route_parameters) i;
           slot ← at_ phantom_node_vector i;
           _ ← emit (EvIncrementalFind i c 1);
           let found := IncrementalFindPhantomNodeForCoordinate c slot 1 in
           let kept := erase_first_if_many found in
           first ← front kept;
           _ ← BOOST_ASSERT (is_valid first GetNumberOfNodes);
           mret (<[i := kept]> phantom_node_vector)
       end)
    = ([EvIncrementalFind i c 1],
       search_outcome i (IncrementalFindPhantomNodeForCoordinate c slot 1)
                      phantom_node_vector)).
  { rewrite bind_mret, (at_Some _ _ _ Hc), bind_mret, (at_Some _ _ _ Hslot),
      bind_mret, bind_emit.
    unfold search_outcome.
    destruct (erase_first_if_many _) as [| first rest]; [reflexivity |].
    unfold front. rewrite bind_mret. unfold BOOST_ASSERT.
    destruct (is_valid first GetNumberOfNodes); reflexivity. }
  unfold GetPhantomNodes_body, usable_hint, decode_events, decoded_hint in *.
  case_bool_decide as Hsum; [| exact Hsearch].
  destruct (hints route_parameters !! i) as [h |] eqn:Hh.
  - rewrite (bool_decide_eq_true_2 (i < length (hints route_parameters)));
      [| eapply lookup_lt_Some; eassumption].
    simpl andb. cbv iota.
    rewrite (at_Some _ _ _ Hh), bind_mret.
    destruct (String.eqb h "") eqn:He; [exact Hsearch |].
    simpl negb. cbv iota. rewrite bind_emit.
    destruct (is_valid (DecodeFromBase64 h) GetNumberOfNodes); [discriminate |].
    rewrite bind_mret in Hsearch.
    change (mret None ≫= ?f) with (f None). cbv beta iota.
    rewrite Hsearch. reflexivity.
  - rewrite (bool_decide_eq_false_2 (i < length (hints route_parameters)));
      [exact Hsearch |].
    apply lookup_ge_None in Hh. lia.
Qed.

Lemma search_outcome_Done (i : nat) (found : list PhantomNode)
    (v v' : PhantomNodeArray) :
  search_outcome i found v = Done v' <->
  front_is_valid (erase_first_if_many found) /\
  v' = <[i := erase_first_if_many found]> v.
Proof.
  unfold search_outcome, front_is_valid.
  destruct (erase_first_if_many found) as [| first rest]; simpl.
  - split; [discriminate |]. intros [(first & [=] & _) _].
  - destruct (is_valid first GetNumberOfNodes) eqn:Hv.
    + split; [intros [= <-]; eauto |]. intros [_ ->]. reflexivity.
    + split; [discriminate |]. intros [(first' & [= <-] & Hv') _]. congruence.
Qed.

(** One iteration that ends well updates exactly slot [i]. *)
Lemma GetPhantomNodes_body_Done (route_parameters : RouteParameters) (i : nat)
    (v v' : PhantomNodeArray) (c : FixedPointCoordinate)
    (slot : list PhantomNode) (t : list Event) :
  coordinates route_parameters !! i = Some c ->
  v !! i = Some slot ->
  GetPhantomNodes_body route_parameters
    (bool_decide (check_sum route_parameters = GetCheckSum)) i v = (t, Done v') ->
  v' = <[i := resolved route_parameters i c slot]> v /\
  (forall j c' k, EvIncrementalFind j c' k ∈ t ->
     j = i /\ usable_hint route_parameters i = None) /\
  (usable_hint route_parameters i = None ->
     EvIncrementalFind i c 1 ∈ t /\
     front_is_valid (resolved route_parameters i c slot)).
Proof.
  intros Hc Hslot Hrun. unfold resolved.
  destruct (usable_hint route_parameters i) as [hint |] eqn:Hu.
  - rewrite (GetPhantomNodes_body_hint _ _ _ _ _ Hu Hslot) in Hrun.
    injection Hrun as <- <-. split; [reflexivity |]. split; [| discriminate].
    intros j c' k Hin. apply list_elem_of_singleton in Hin. discriminate.
  - rewrite (GetPhantomNodes_body_search _ _ _ _ _ Hu Hc Hslot) in Hrun.
    injection Hrun as <- Hout. apply search_outcome_Done in Hout as [Hfront ->].
    split; [reflexivity |]. split.
    + intros j c' k Hin. apply elem_of_app in Hin as [Hin | Hin].
      * unfold decode_events in Hin.
        destruct (decoded_hint route_parameters i).
        -- apply list_elem_of_singleton in Hin. discriminate.
        -- apply elem_of_nil in Hin. contradiction.
      * apply list_elem_of_singleton in Hin. injection Hin as -> _ _. auto.
    + intros _. split; [| exact Hfront].
      apply elem_of_app. right. apply list_elem_of_singleton. reflexivity.
Qed.

(** The loop of [GetPhantomNodes] over the waypoints [m, m + n). *)
Lemma GetPhantomNodes_loop (route_parameters : RouteParameters) (n : nat) :
  forall (m : nat) (v v' : PhantomNodeArray) (t : list Event),
  m + n <= length (coordinates route_parameters) ->
  m + n <= length v ->
  for_each (GetPhantomNodes_body route_parameters
              (bool_decide (check_sum route_parameters = GetCheckSum)))
           (seq m n) v = (t, Done v') ->
  length v' = length v /\
  (forall i, ~ (m <= i < m + n) -> v' !! i = v !! i) /\
  (forall i, m <= i < m + n ->
     exists c slot,
       coordinates route_parameters !! i = Some c /\ v !! i = Some slot /\
       v' !! i = Some (resolved route_parameters i c slot) /\
       (usable_hint route_parameters i = None ->
          EvIncrementalFind i c 1 ∈ t /\
          front_is_valid (resolved route_parameters i c slot))) /\
  (forall j c k, EvIncrementalFind j c k ∈ t ->
     m <= j < m + n /\ usable_hint route_parameters j = None).
Proof.
  induction n as [| n IH]; intros m v v' t Hcoords Hlen Hrun.
  - injection Hrun as <- <-. split; [reflexivity |]. split; [reflexivity |].
    split; [intros i Hi; lia |].
    intros j c k Hj. apply elem_of_nil in Hj. contradiction.
  - change (seq m (S n)) with (m :: seq (S m) n) in Hrun.
    change (for_each ?b (m :: ?l) v) with (b m v ≫= for_each b l) in Hrun.
    apply bind_inv_Done in Hrun as (t1 & v1 & t2 & Hbody & Hrest & ->).
    destruct (lookup_lt_is_Some_2 (coordinates route_parameters) m) as [c Hc];
      [lia |].
    destruct (lookup_lt_is_Some_2 v m) as [slot Hslot]; [lia |].
    destruct (GetPhantomNodes_body_Done _ _ _ _ _ _ _ Hc Hslot Hbody)
      as (-> & Hev1 & Hnone1).
    apply IH in Hrest as (Hlen' & Hout & Hin & Hev2);
      [| lia | rewrite length_insert; lia].
    rewrite length_insert in Hlen'.
    split; [exact Hlen' |]. split; [| split].
    + intros i Hi. rewrite Hout by lia. apply list_lookup_insert_ne. lia.
    + intros i Hi. destruct (decide (i = m)) as [-> | Hne].
      * exists c, slot. split; [exact Hc |]. split; [exact Hslot |]. split.
        -- rewrite Hout by lia. apply list_lookup_insert_eq. lia.
        -- intros Hu. destruct (Hnone1 Hu) as [Hfind Hfront].
           split; [| exact Hfront]. apply elem_of_app. left. exact Hfind.
      * destruct (Hin i) as (ci & sloti & Hci & Hsi & Hv'i & Hnone); [lia |].
        rewrite list_lookup_insert_ne in Hsi by lia.
        exists ci, sloti. split; [exact Hci |]. split; [exact Hsi |].
        split; [exact Hv'i |].
        intros Hu. destruct (Hnone Hu) as [Hfind Hfront].
        split; [| exact Hfront]. apply elem_of_app. right. exact Hfind.
    + intros j cj k Hj. apply elem_of_app in Hj as [Hj | Hj].
      * destruct (Hev1 _ _ _ Hj) as [-> Hu]. split; [lia | exact Hu].
      * destruct (Hev2 _ _ _ Hj) as [Hrange Hu]. split; [lia | exact Hu].
Qed.

(** The array the handler starts from: one empty vector per coordinate. *)
Lemma GetPhantomNodes_fresh (route_parameters : RouteParameters)
    (t : list Event) (v' : PhantomNodeArray) :
  GetPhantomNodes route_parameters (fresh_array route_parameters)
    = (t, Done v') ->
  length v' = length (coordinates route_parameters) /\
  (forall i c, coordinates route_parameters !! i = Some c ->
     v' !! i = Some (resolved route_parameters i c []) /\
     (usable_hint route_parameters i = None ->
        EvIncrementalFind i c 1 ∈ t /\
        front_is_valid (resolved route_parameters i c []))) /\
  (forall j c k, EvIncrementalFind j c k ∈ t ->
     usable_hint route_parameters j = None).
Proof.
  unfold GetPhantomNodes, fresh_array. intros Hrun.
  apply GetPhantomNodes_loop in Hrun as (Hlen & _ & Hin & Hev);
    [| lia | rewrite length_replicate; lia].
  rewrite length_replicate in Hlen. split; [exact Hlen |]. split.
  - intros i c Hc. pose proof (lookup_lt_Some _ _ _ Hc) as Hi.
    destruct (Hin i) as (c' & slot & Hc' & Hslot & Hv' & Hnone); [lia |].
    apply lookup_replicate in Hslot as [<- _].
    assert (c' = c) as -> by congruence. auto.
  - intros j c k Hj. apply (Hev _ _ _ Hj).
Qed.

Lemma GetPhantomNodes_loop_returns (route_parameters : RouteParameters) (n : nat) :
  forall (m : nat) (v : PhantomNodeArray),
  m + n <= length (coordinates route_parameters) ->
  m + n <= length v ->
  (forall i c slot, m <= i < m + n ->
     coordinates route_parameters !! i = Some c -> v !! i = Some slot ->
     usable_hint route_parameters i = None ->
     front_is_valid (resolved route_parameters i c slot)) ->
  exists t v',
    for_each (GetPhantomNodes_body route_parameters
                (bool_decide (check_sum route_parameters = GetCheckSum)))
             (seq m n) v = (t, Done v').
Proof.
  induction n as [| n IH]; intros m v Hcoords Hlen Hfinds.
  - exists [], v. reflexivity.
  - change (seq m (S n)) with (m :: seq (S m) n).
    change (for_each ?b (m :: ?l) v) with (b m v ≫= for_each b l).
    destruct (lookup_lt_is_Some_2 (coordinates route_parameters) m) as [c Hc];
      [lia |].
    destruct (lookup_lt_is_Some_2 v m) as [slot Hslot]; [lia |].
    assert (exists t1,
      GetPhantomNodes_body route_parameters
        (bool_decide (check_sum route_parameters = GetCheckSum)) m v
      = (t1, Done (<[m := resolved route_parameters m c slot]> v)))
      as [t1 Hbody].
    { specialize (Hfinds m c slot). unfold resolved in *.
      destruct (usable_hint route_parameters m) as [hint |] eqn:Hu.
      - eexists. eapply GetPhantomNodes_body_hint; eassumption.
      - eexists. rewrite (GetPhantomNodes_body_search _ _ _ _ _ Hu Hc Hslot).
        f_equal. apply search_outcome_Done. split; [| reflexivity].
        apply Hfinds; [lia | assumption ..| reflexivity]. }
    rewrite Hbody, bind_Done.
    destruct (IH (S m) (<[m := resolved route_parameters m c slot]> v))
      as (t2 & v' & Hrest).
    + lia.
    + rewrite length_insert. lia.
    + intros i ci sloti Hi Hci Hsi. rewrite list_lookup_insert_ne in Hsi by lia.
      apply Hfinds; [lia | assumption ..].
    + rewrite Hrest. eauto.
Qed.

Lemma GetPhantomNodes_returns (route_parameters : RouteParameters) :
  facade_finds route_parameters ->
  exists t v',
    GetPhantomNodes route_parameters (fresh_array route_parameters)
    = (t, Done v').
Proof.
  intros Hfinds. unfold GetPhantomNodes, fresh_array.
  apply GetPhantomNodes_loop_returns; [lia | rewrite length_replicate; lia |].
  intros i c slot Hi Hc Hslot Hu. apply lookup_replicate in Hslot as [-> _].
  unfold resolved. rewrite Hu. apply (Hfinds i c Hc Hu).
Qed.

(** ** Which calls a part of the pipeline makes *)

Lemma only_bind {A B} (P : Event -> Prop) (m : M A) (f : A -> M B) :
  only P m -> (forall a, only P (f a)) -> only P (m ≫= f).
Proof.
  unfold only. destruct m as [t [a | why]]; simpl; [| auto].
  intros Ht Hf. apply Forall_app. auto.
Qed.

Lemma only_mret {A} (P : Event -> Prop) (a : A) : only P (mret a).
Proof. apply Forall_nil_2. Qed.

Lemma only_undefined {A} (P : Event -> Prop) (why : Reason) :
  only P (undefined why : M A).
Proof. apply Forall_nil_2. Qed.

Lemma only_emit (P : Event -> Prop) (e : Event) : P e -> only P (emit e).
Proof. intros He. apply Forall_cons_2; [exact He | apply Forall_nil_2]. Qed.

Lemma only_at_ {A} (P : Event -> Prop) (v : list A) (i : nat) : only P (at_ v i).
Proof. unfold at_. destruct (v !! i); [apply only_mret | apply only_undefined]. Qed.

Lemma only_front {A} (P : Event -> Prop) (v : list A) : only P (front v).
Proof. destruct v; [apply only_undefined | apply only_mret]. Qed.

Lemma only_back {A} (P : Event -> Prop) (v : list A) : only P (back v).
Proof. unfold back. destruct (last v); [apply only_mret | apply only_undefined]. Qed.

Lemma only_BOOST_ASSERT (P : Event -> Prop) (b : bool) : only P (BOOST_ASSERT b).
Proof. destruct b; [apply only_mret | apply only_undefined]. Qed.

Lemma only_for_each {A S} (P : Event -> Prop) (body : A -> S -> M S)
    (l : list A) (s : S) :
  (forall x s, only P (body x s)) -> only P (for_each body l s).
Proof.
  intros Hbody. revert s. induction l as [| x l IH]; intros s.
  - apply only_mret.
  - apply only_bind; auto.
Qed.

Lemma GetPhantomNodes_only_resolves (route_parameters : RouteParameters)
    (v : PhantomNodeArray) :
  only resolution_event (GetPhantomNodes route_parameters v).
Proof.
  apply only_for_each. intros i w. unfold GetPhantomNodes_body.
  apply only_bind.
  - destruct (_ && _); [| apply only_mret].
    apply only_bind; [apply only_at_ |]. intros hint.
    destruct (negb _); [| apply only_mret].
    apply only_bind; [apply only_emit; exact I |]. intros _.
    destruct (is_valid _ _); [| apply only_mret].
    apply only_bind; [apply only_at_ |]. intros slot. apply only_mret.
  - intros [w' |]; [apply only_mret |].
    apply only_bind; [apply only_at_ |]. intros c.
    apply only_bind; [apply only_at_ |]. intros slot.
    apply only_bind; [apply only_emit; exact I |]. intros _.
    apply only_bind; [apply only_front |]. intros first.
    apply only_bind; [apply only_BOOST_ASSERT |]. intros _. apply only_mret.
Qed.

(** ** Connectivity partitioning *)

Lemma push_back_empty_loop (l : list nat) (components : list (list NodeID)) :
  for_each (fun (j : nat) components => mret (components ++ [[]])) l components
  = mret (components ++ replicate (length l) []).
Proof.
  revert components. induction l as [| j l IH]; intros components.
  - simpl. rewrite app_nil_r. reflexivity.
  - change (for_each ?b (j :: l) components)
      with (b j components ≫= for_each b l).
    cbv beta. rewrite bind_mret, IH, <- app_assoc. reflexivity.
Qed.

Lemma fill_components_loop (scc : TarjanSCC) (n : nat) :
  forall (m : nat) (components : list (list NodeID)),
  (forall i, m <= i < m + n -> get_component_id scc i < length components) ->
  for_each (fun (i : nat) components =>
              let id := get_component_id scc i in
              component ← at_ components id;
              mret (<[id := component ++ [i]]> components))
           (seq m n) components
  = mret (imap (fun c component => component ++ members scc m n c) components).
Proof.
  induction n as [| n IH]; intros m components Hrange.
  - simpl. f_equal. f_equal. apply list_eq. intros c.
    rewrite list_lookup_imap. destruct (components !! c); simpl; [| reflexivity].
    unfold members. simpl. rewrite app_nil_r. reflexivity.
  - change (seq m (S n)) with (m :: seq (S m) n).
    change (for_each ?b (m :: ?l) components) with (b m components ≫= for_each b l).
    cbv beta zeta.
    destruct (lookup_lt_is_Some_2 components (get_component_id scc m))
      as [component Hcomponent]; [apply Hrange; lia |].
    rewrite (at_Some _ _ _ Hcomponent), !bind_mret, IH.
    + f_equal. apply list_eq. intros c.
      rewrite !list_lookup_imap.
      unfold members. change (seq m (S n)) with (m :: seq (S m) n).
      rewrite filter_cons.
      destruct (decide (get_component_id scc m = c)) as [<- | Hne].
      * rewrite list_lookup_insert_eq by (eapply lookup_lt_Some; eassumption).
        rewrite Hcomponent. simpl. rewrite <- app_assoc. reflexivity.
      * rewrite list_lookup_insert_ne by exact Hne. reflexivity.
    + intros i Hi. rewrite length_insert. apply Hrange. lia.
Qed.

Lemma SplitUnaccessibleLocations_spec (number_of_locations : nat)
    (result_table : DistTableWrapper) :
  let scc := scc_run (GetTable result_table) number_of_locations in
  scc_ids_in_range scc number_of_locations ->
  SplitUnaccessibleLocations number_of_locations result_table []
  = ([EvTarjanRun number_of_locations],
     Done (map (members scc 0 number_of_locations)
               (seq 0 (get_number_of_components scc)))).
Proof.
  intros scc Hrange. unfold SplitUnaccessibleLocations. fold scc.
  rewrite bind_emit. cbv zeta.
  rewrite push_back_empty_loop, bind_mret, fill_components_loop.
  - simpl. f_equal. f_equal. rewrite length_seq. apply list_eq. intros c.
    rewrite list_lookup_imap, list_lookup_fmap.
    destruct (decide (c < get_number_of_components scc)) as [Hc | Hc].
    + rewrite lookup_replicate_2, lookup_seq_lt by exact Hc. reflexivity.
    + rewrite (proj1 (lookup_replicate_None _ _ _)), lookup_seq_ge by lia.
      reflexivity.
  - intros i Hi. simpl. rewrite length_replicate, length_seq. apply Hrange. lia.
Qed.

Lemma elem_of_members (scc : TarjanSCC) (n c i : nat) :
  i ∈ members scc 0 n c <-> i < n /\ get_component_id scc i = c.
Proof.
  unfold members. rewrite list_elem_of_filter, elem_of_seq. intuition lia.
Qed.

Lemma members_partition (scc : TarjanSCC) (n : nat) :
  scc_ids_in_range scc n -> scc_ids_onto scc n ->
  strict_partition n (map (members scc 0 n) (seq 0 (get_number_of_components scc))).
Proof.
  intros Hrange Honto. split.
  - intros component Hin. apply list_elem_of_fmap in Hin as (c & -> & Hc).
    apply elem_of_seq in Hc. destruct (Honto c) as (i & Hi & Hid); [lia |].
    intros Hnil. assert (i ∈ members scc 0 n c) as Hmem
      by (apply elem_of_members; auto).
    rewrite Hnil in Hmem. apply elem_of_nil in Hmem. exact Hmem.
  - intros i. split.
    + intros Hi. exists (members scc 0 n (get_component_id scc i)). split.
      * apply list_elem_of_fmap. eexists. split; [reflexivity |].
        apply elem_of_seq. specialize (Hrange i Hi). lia.
      * apply elem_of_members. auto.
    + intros (component & Hin & Hi).
      apply list_elem_of_fmap in Hin as (c & -> & _).
      apply elem_of_members in Hi. tauto.
  - intros j k cj ck i Hj Hk Hcj Hck.
    rewrite list_lookup_fmap in Hj, Hk.
    destruct (seq 0 _ !! j) as [c1 |] eqn:H1; [| discriminate].
    destruct (seq 0 _ !! k) as [c2 |] eqn:H2; [| discriminate].
    apply lookup_seq in H1 as [-> _]. apply lookup_seq in H2 as [-> _].
    simpl in Hj, Hk. injection Hj as <-. injection Hk as <-.
    apply elem_of_members in Hcj, Hck. lia.
  - intros component Hin. apply list_elem_of_fmap in Hin as (c & -> & _).
    unfold members. apply NoDup_filter, NoDup_seq.
Qed.

Lemma iota_partition (n : nat) : 0 < n -> strict_partition n [seq 0 n].
Proof.
  intros Hn. split.
  - intros component Hin. apply list_elem_of_singleton in Hin as ->.
    destruct n; [lia | discriminate].
  - intros i. split.
    + intros Hi. exists (seq 0 n). split; [apply list_elem_of_singleton; reflexivity |].
      apply elem_of_seq. lia.
    + intros (component & Hin & Hi). apply list_elem_of_singleton in Hin as ->.
      apply elem_of_seq in Hi. lia.
  - intros j k cj ck i Hj Hk _ _.
    apply lookup_lt_Some in Hj, Hk. simpl in Hj, Hk. lia.
  - intros component Hin. apply list_elem_of_singleton in Hin as ->.
    apply NoDup_seq.
Qed.

(** [max_element] yields an entry that bounds all entries. *)
Lemma foldl_max_spec (l : list Z) (x : Z) :
  foldl Z.max x l ∈ x :: l /\ Forall (fun y => (y <= foldl Z.max x l)%Z) (x :: l).
Proof.
  revert x. induction l as [| y l IH]; intros x; simpl.
  - split; [apply list_elem_of_singleton; reflexivity |].
    apply Forall_cons_2; [lia | apply Forall_nil_2].
  - destruct (IH (Z.max x y)) as [Hin Hall]. split.
    + apply elem_of_cons in Hin as [Heq | Hin].
      * destruct (Z.max_spec x y) as [[_ Hm] | [_ Hm]]; rewrite Heq, Hm.
        -- apply elem_of_cons. right. apply elem_of_cons. left. reflexivity.
        -- apply elem_of_cons. left. reflexivity.
      * apply elem_of_cons. right. apply elem_of_cons. right. exact Hin.
    + apply Forall_cons in Hall as [Hx Hall].
      apply Forall_cons_2; [lia |]. apply Forall_cons_2; [lia | exact Hall].
Qed.

Lemma max_element_is_sentinel (v : list Z) (sentinel : Z) :
  v <> [] -> Forall (fun w => (w <= sentinel)%Z) v ->
  exists largest, max_element v = mret largest /\
    (largest = sentinel <-> sentinel ∈ v).
Proof.
  intros Hne Hbound. destruct v as [| x v]; [congruence |].
  exists (foldl Z.max x v). split; [reflexivity |].
  destruct (foldl_max_spec v x) as [Hin Hall]. split.
  - intros <-. exact Hin.
  - intros Hs. rewrite Forall_forall in Hall, Hbound.
    specialize (Hall _ Hs). specialize (Hbound _ Hin). lia.
Qed.

(** ** Route stitching *)

Lemma phantom_of_Some (phantom_node_vector : PhantomNodeArray) (n : NodeID)
    (p : PhantomNode) :
  first_candidate phantom_node_vector n = Some p ->
  phantom_of phantom_node_vector n = mret p.
Proof.
  unfold first_candidate, phantom_of.
  destruct (phantom_node_vector !! n) as [[| q rest] |] eqn:Hn; try discriminate.
  intros [= ->]. rewrite (at_Some _ _ _ Hn), bind_mret. reflexivity.
Qed.

Lemma phantom_of_inv_Done (phantom_node_vector : PhantomNodeArray) (n : NodeID)
    (t : list Event) (p : PhantomNode) :
  phantom_of phantom_node_vector n = (t, Done p) ->
  first_candidate phantom_node_vector n = Some p /\ t = [].
Proof.
  unfold first_candidate, phantom_of, at_.
  destruct (phantom_node_vector !! n) as [[| q rest] |]; try discriminate.
  intros [= <- ->]. auto.
Qed.

Lemma add_legs_nil (r : InternalRouteResult) : add_legs r [] = r.
Proof. destruct r. unfold add_legs. simpl. rewrite app_nil_r. reflexivity. Qed.

Lemma add_legs_emplace (r : InternalRouteResult) (v : PhantomNodes)
    (legs : list PhantomNodes) :
  add_legs (emplace_back_leg r v) legs = add_legs r (v :: legs).
Proof. unfold add_legs, emplace_back_leg. simpl. rewrite <- app_assoc. reflexivity. Qed.

Lemma ComputeRoute_loop_spec (phantom_node_vector : PhantomNodeArray)
    (trip : list NodeID) (ps : list PhantomNode) :
  trip_phantoms phantom_node_vector trip ps -> trip <> [] ->
  forall r, ComputeRoute_loop phantom_node_vector trip r
            = mret (add_legs r (consecutive_legs ps)).
Proof.
  induction 1 as [| from p rest ps' Hp Hrest IH]; intros Hne r; [congruence |].
  destruct Hrest as [| to q rest' ps'' Hq Hrest'].
  - simpl. rewrite add_legs_nil. reflexivity.
  - change (ComputeRoute_loop phantom_node_vector (from :: to :: rest') r)
      with (x ← phantom_of phantom_node_vector from;
            y ← phantom_of phantom_node_vector to;
            ComputeRoute_loop phantom_node_vector (to :: rest')
              (emplace_back_leg r (mkPhantomNodes x y))).
    rewrite (phantom_of_Some _ _ _ Hp), bind_mret.
    rewrite (phantom_of_Some _ _ _ Hq), bind_mret.
    rewrite IH by discriminate. rewrite add_legs_emplace. reflexivity.
Qed.

Lemma trip_phantoms_last (phantom_node_vector : PhantomNodeArray)
    (trip : list NodeID) (ps : list PhantomNode) (n : NodeID) :
  trip_phantoms phantom_node_vector trip ps -> last trip = Some n ->
  exists p, last ps = Some p /\ first_candidate phantom_node_vector n = Some p.
Proof.
  intros Hps Hlast. apply last_Some in Hlast as [trip' ->].
  apply Forall2_app_inv_l in Hps as (ps' & ps1 & _ & H1 & ->).
  apply Forall2_cons_inv_l in H1 as (p & ps2 & Hp & Hnil & ->).
  apply Forall2_nil_inv_l in Hnil as ->.
  exists p. split; [apply last_snoc | exact Hp].
Qed.

(** One trip whose waypoints all have a candidate: the legs are appended to
    the route and handed to one shortest-path query. *)
Lemma ComputeRoute_spec (phantom_node_vector : PhantomNodeArray)
    (route_parameters : RouteParameters) (trip : list NodeID)
    (ps : list PhantomNode) (r : InternalRouteResult) :
  trip_phantoms phantom_node_vector trip ps -> trip <> [] ->
  ComputeRoute phantom_node_vector route_parameters trip r
  = ([EvShortestPath (segment_end_coordinates r ++ tour_legs ps)
                     (uturns route_parameters)],
     Done (shortest_path (segment_end_coordinates r ++ tour_legs ps)
                         (uturns route_parameters) (add_legs r (tour_legs ps)))).
Proof.
  intros Hps Hne. unfold ComputeRoute.
  rewrite (ComputeRoute_loop_spec _ _ _ Hps Hne), bind_mret.
  destruct trip as [| first_node trip']; [congruence |].
  destruct (last (first_node :: trip')) as [last_node |] eqn:Hlast;
    [| apply last_None in Hlast; discriminate].
  destruct (trip_phantoms_last _ _ _ _ Hps Hlast) as (from & Hfrom & Hcand).
  unfold back. rewrite Hlast, bind_mret.
  rewrite (phantom_of_Some _ _ _ Hcand), bind_mret.
  inversion Hps as [| ? to ? ps' Hto Hrest]; subst.
  unfold front. rewrite bind_mret, (phantom_of_Some _ _ _ Hto), bind_mret.
  rewrite bind_emit.
  assert (emplace_back_leg (add_legs r (consecutive_legs (to :: ps')))
                           (mkPhantomNodes from to)
          = add_legs r (tour_legs (to :: ps'))) as ->.
  { unfold tour_legs, closing_leg. rewrite Hfrom. simpl head.
    unfold emplace_back_leg, add_legs. simpl. rewrite <- app_assoc. reflexivity. }
  reflexivity.
Qed.

Lemma ComputeRoute_loop_inv (phantom_node_vector : PhantomNodeArray)
    (trip : list NodeID) :
  forall r t r',
  ComputeRoute_loop phantom_node_vector trip r = (t, Done r') ->
  trip <> [] /\
  (2 <= length trip ->
   forall n, n ∈ trip -> is_Some (first_candidate phantom_node_vector n)).
Proof.
  induction trip as [| from rest IH]; intros r t r' Hrun; [discriminate |].
  split; [discriminate |]. intros Hlen n Hn.
  destruct rest as [| to rest']; [simpl in Hlen; lia |].
  change (ComputeRoute_loop phantom_node_vector (from :: to :: rest') r)
    with (x ← phantom_of phantom_node_vector from;
          y ← phantom_of phantom_node_vector to;
          ComputeRoute_loop phantom_node_vector (to :: rest')
            (emplace_back_leg r (mkPhantomNodes x y))) in Hrun.
  apply bind_inv_Done in Hrun as (t1 & x & t2 & Hx & Hrun & _).
  apply bind_inv_Done in Hrun as (t3 & y & t4 & Hy & Hrun & _).
  apply phantom_of_inv_Done in Hx as [Hx _].
  apply phantom_of_inv_Done in Hy as [Hy _].
  apply IH in Hrun as [_ Hrest].
  apply elem_of_cons in Hn as [-> | Hn]; [eauto |].
  apply elem_of_cons in Hn as [-> | Hn]; [eauto |].
  apply Hrest.
  - destruct rest'; [apply elem_of_nil in Hn; contradiction | simpl; lia].
  - apply elem_of_cons. right. exact Hn.
Qed.

Lemma trip_phantoms_exists (phantom_node_vector : PhantomNodeArray)
    (trip : list NodeID) :
  (forall n, n ∈ trip -> is_Some (first_candidate phantom_node_vector n)) ->
  exists ps, trip_phantoms phantom_node_vector trip ps.
Proof.
  induction trip as [| n trip IH]; intros Hall.
  - exists []. apply Forall2_nil_2.
  - destruct (Hall n) as [p Hp]; [apply elem_of_cons; auto |].
    destruct IH as [ps Hps].
    { intros m Hm. apply Hall. apply elem_of_cons. auto. }
    exists (p :: ps). apply Forall2_cons_2; assumption.
Qed.

(** A call of [ComputeRoute] that ends well had a non-empty trip whose
    waypoints all have a candidate. *)
Lemma ComputeRoute_inv (phantom_node_vector : PhantomNodeArray)
    (route_parameters : RouteParameters) (trip : list NodeID)
    (r r' : InternalRouteResult) (t : list Event) :
  ComputeRoute phantom_node_vector route_parameters trip r = (t, Done r') ->
  trip <> [] /\ exists ps, trip_phantoms phantom_node_vector trip ps.
Proof.
  unfold ComputeRoute. intros Hrun.
  apply bind_inv_Done in Hrun as (t1 & r1 & t2 & Hloop & Hrun & _).
  apply ComputeRoute_loop_inv in Hloop as [Hne Hall].
  split; [exact Hne |]. apply trip_phantoms_exists.
  destruct trip as [| first_node [| second_node trip']]; [congruence | |].
  - apply bind_inv_Done in Hrun as (t3 & last_node & t4 & Hback & Hrun & _).
    injection Hback as _ <-.
    apply bind_inv_Done in Hrun as (t5 & from & t6 & Hfrom & _).
    apply phantom_of_inv_Done in Hfrom as [Hfrom _].
    intros n Hn. apply list_elem_of_singleton in Hn as ->. eauto.
  - apply Hall. simpl. lia.
Qed.

Lemma ComputeRoutes_spec (phantom_node_vector : PhantomNodeArray)
    (route_parameters : RouteParameters) (trips : list (list NodeID))
    (pss : list (list PhantomNode)) :
  trips_phantoms phantom_node_vector trips pss ->
  forall route,
  ComputeRoutes phantom_node_vector route_parameters trips route
  = (concat (map (stitch_events route_parameters) pss),
     Done (route ++ map (stitched route_parameters) pss)).
Proof.
  unfold ComputeRoutes. set (body := fun curr_trip route => _).
  induction 1 as [| trip ps trips pss [Hne Hps] _ IH]; intros route.
  - simpl. rewrite app_nil_r. reflexivity.
  - change (for_each body (trip :: trips) route)
      with (body trip route ≫= for_each body trips).
    assert (body trip route
            = (stitch_events route_parameters ps,
               Done (route ++ [stitched route_parameters ps]))) as ->.
    { unfold body.
      rewrite (ComputeRoute_spec _ route_parameters _ _
                 InternalRouteResult_default Hps Hne).
      reflexivity. }
    rewrite bind_Done, IH. simpl. rewrite <- app_assoc. reflexivity.
Qed.

Lemma ComputeRoutes_inv (phantom_node_vector : PhantomNodeArray)
    (route_parameters : RouteParameters) (trips : list (list NodeID)) :
  forall route t routes,
  ComputeRoutes phantom_node_vector route_parameters trips route
    = (t, Done routes) ->
  exists pss, trips_phantoms phantom_node_vector trips pss.
Proof.
  unfold ComputeRoutes. set (body := fun curr_trip route => _).
  induction trips as [| trip trips IH]; intros route t routes Hrun.
  - exists []. apply Forall2_nil_2.
  - change (for_each body (trip :: trips) route)
      with (body trip route ≫= for_each body trips) in Hrun.
    apply bind_inv_Done in Hrun as (t1 & route1 & t2 & Hbody & Hrest & _).
    unfold body in Hbody. cbv beta zeta in Hbody.
    apply bind_inv_Done in Hbody as (t3 & r1 & t4 & Hone & _).
    apply ComputeRoute_inv in Hone as [Hne [ps Hps]].
    apply IH in Hrest as [pss Hpss].
    exists (ps :: pss). apply Forall2_cons_2; auto.
Qed.

(** ** Heuristic dispatch *)

Lemma HandleRequest_tsp_spec (route_parameters : RouteParameters)
    (number_of_locations : nat) (result_table : DistTableWrapper)
    (component : list NodeID) (res_route : list (list NodeID)) :
  HandleRequest_tsp route_parameters number_of_locations result_table
                    component res_route
  = (tsp_events_of route_parameters component,
     Done (res_route
           ++ tours_of route_parameters number_of_locations result_table
                       [component])).
Proof.
  unfold HandleRequest_tsp, tsp_events_of, tours_of, chosen_heuristic.
  rewrite filter_cons, filter_nil.
  destruct (decide (1 < length component)) as [Hbig | Hsmall].
  - rewrite (bool_decide_eq_true_2 _ Hbig).
    destruct (_ && _); [reflexivity |].
    destruct (String.eqb _ "NN"); [reflexivity |].
    destruct (String.eqb _ "FI"); reflexivity.
  - rewrite (bool_decide_eq_false_2 _ Hsmall). simpl. rewrite app_nil_r.
    reflexivity.
Qed.

Lemma tsp_loop_spec (route_parameters : RouteParameters)
    (number_of_locations : nat) (result_table : DistTableWrapper)
    (components : list (list NodeID)) :
  forall res_route,
  for_each (HandleRequest_tsp route_parameters number_of_locations result_table)
           components res_route
  = (tsp_events route_parameters components,
     Done (res_route
           ++ tours_of route_parameters number_of_locations result_table
                       components)).
Proof.
  induction components as [| component components IH]; intros res_route.
  - simpl. rewrite app_nil_r. reflexivity.
  - change (for_each ?b (component :: components) res_route)
      with (b component res_route ≫= for_each b components).
    rewrite HandleRequest_tsp_spec, bind_Done, IH. simpl fst. simpl snd.
    unfold tsp_events, tours_of. rewrite !filter_cons, filter_nil.
    destruct (decide (1 < length component)); simpl;
      rewrite <- ?app_assoc; reflexivity.
Qed.

(** ** Aggregation *)

Lemma HandleRequest_aggregate_spec (route_parameters : RouteParameters)
    (r : InternalRouteResult) (dist : Z) (json_result : json.Object) :
  HandleRequest_aggregate route_parameters r (dist, json_result)
  = if in_int_range (dist + shortest_path_length r)
    then ([EvDescriptorRun r],
          Done ((dist + shortest_path_length r)%Z,
                descriptor_Run route_parameters r json_result))
    else ([], Undefined SignedOverflow).
Proof.
  unfold HandleRequest_aggregate, int_add, SetGeometry. simpl.
  destruct (in_int_range (dist + shortest_path_length r)); reflexivity.
Qed.

Lemma aggregate_loop_returns (route_parameters : RouteParameters)
    (routes : list InternalRouteResult) :
  forall dist json_result,
  sums_in_range dist routes ->
  for_each (HandleRequest_aggregate route_parameters) routes (dist, json_result)
  = (map EvDescriptorRun routes,
     Done ((dist + total_length routes)%Z,
           rendered route_parameters routes json_result)).
Proof.
  induction routes as [| r routes IH]; intros dist json_result Hsums.
  - simpl. rewrite Z.add_0_r. reflexivity.
  - destruct Hsums as [Hfit Hsums].
    change (for_each ?b (r :: routes) ?s) with (b r s ≫= for_each b routes).
    rewrite HandleRequest_aggregate_spec, Hfit, bind_Done, IH by exact Hsums.
    simpl. rewrite Z.add_assoc. reflexivity.
Qed.

Lemma aggregate_loop_inv (route_parameters : RouteParameters)
    (routes : list InternalRouteResult) :
  forall dist json_result t acc,
  for_each (HandleRequest_aggregate route_parameters) routes (dist, json_result)
    = (t, Done acc) ->
  sums_in_range dist routes.
Proof.
  induction routes as [| r routes IH]; intros dist json_result t acc Hrun.
  - exact I.
  - change (for_each ?b (r :: routes) ?s) with (b r s ≫= for_each b routes) in Hrun.
    rewrite HandleRequest_aggregate_spec in Hrun.
    destruct (in_int_range (dist + shortest_path_length r)) eqn:Hfit;
      [| discriminate].
    rewrite bind_Done in Hrun. simpl in Hrun.
    split; [exact Hfit |].
    destruct (for_each _ routes _) as [t2 [acc2 |]] eqn:Hrest; [| discriminate].
    eapply IH. exact Hrest.
Qed.

(** ** The request as a whole *)

Lemma HandleRequest_handled (route_parameters : RouteParameters)
    (json_result json_result' : json.Object) (t : list Event) (status : Z) :
  HandleRequest route_parameters json_result = (t, Done (status, json_result'))
  <-> handled route_parameters json_result t status json_result'.
Proof.
  unfold HandleRequest. split.
  - destruct (check_all_coordinates (coordinates route_parameters)) eqn:Hcheck;
      simpl negb; cbv iota.
    2: { intros [= <- <- <-]. apply handled_invalid_input. exact Hcheck. }
    intros Hrun.
    apply bind_inv_Done in Hrun as (t_r & v & t1 & Hresolve & Hrun & ->).
    apply bind_inv_Done in Hrun as (t0 & [] & t2 & Hemit & Hrun & ->).
    injection Hemit as <-. cbv zeta in Hrun.
    unfold DistTableWrapper_size in Hrun. simpl table_ in Hrun.
    case_bool_decide as Hempty.
    { injection Hrun as <- <- <-. apply length_zero_iff_nil in Hempty.
      apply handled_empty_table; assumption. }
    assert (distance_table v <> []) as Hne
      by (intros Heq; rewrite Heq in Hempty; apply Hempty; reflexivity).
    apply bind_inv_Done in Hrun as (t3 & [] & t4 & Hassert & Hrun & ->).
    unfold BOOST_ASSERT in Hassert.
    rewrite (bool_decide_eq_true_2 (0 < length (distance_table v))) in Hassert
      by lia.
    injection Hassert as <-.
    apply bind_inv_Done in Hrun as (t_c & components & t5 & Hsplit & Hrun & ->).
    apply bind_inv_Done in Hrun as (t_h & tours & t6 & Htsp & Hrun & ->).
    rewrite tsp_loop_spec in Htsp. injection Htsp as <- <-.
    apply bind_inv_Done in Hrun as (t_s & routes & t7 & Hstitch & Hrun & ->).
    apply bind_inv_Done in Hrun as (t8 & [] & t9 & Hemit & Hrun & ->).
    injection Hemit as <-.
    apply bind_inv_Done in Hrun as (t_a & [dist json2] & t10 & Hsum & Hret & ->).
    injection Hret as <- <- <-.
    pose proof (aggregate_loop_inv _ _ _ _ _ _ Hsum) as Hfit.
    rewrite (aggregate_loop_returns _ _ _ _ Hfit) in Hsum.
    injection Hsum as <- <- <-.
    simpl app in Hstitch. rewrite Z.add_0_l, app_nil_r.
    exact (handled_round_trip route_parameters json_result t_r t_c t_s v
             components routes Hcheck Hresolve Hne Hsplit Hstitch Hfit).
  - intros Hhandled. destruct Hhandled as
      [Hcheck | t_r v Hcheck Hresolve Hempty
       | t_r t_c t_s v components routes result_table Hcheck Hresolve Hne
           Hsplit Hstitch Hfit].
    + rewrite Hcheck. reflexivity.
    + rewrite Hcheck. simpl negb. cbv iota.
      rewrite Hresolve, bind_Done. cbv beta.
      rewrite (bind_emit _ (EvDistanceTable v)). cbv zeta.
      unfold DistTableWrapper_size. simpl table_. rewrite Hempty. reflexivity.
    + rewrite Hcheck. simpl negb. cbv iota.
      apply (bind_run _ _ _ _ _ _ Hresolve). cbv beta.
      apply (bind_run _ _ [EvDistanceTable v] _ () _ eq_refl). cbv beta zeta.
      unfold DistTableWrapper_size. simpl table_.
      rewrite (bool_decide_eq_false_2 (length (distance_table v) = 0));
        [| intros Hz; apply length_zero_iff_nil in Hz; contradiction].
      rewrite (bool_decide_eq_true_2 (0 < length (distance_table v)));
        [| destruct (distance_table v); [congruence | simpl; lia]].
      unfold BOOST_ASSERT. rewrite bind_mret.
      apply (bind_run _ _ _ _ _ _ Hsplit). cbv beta.
      apply (bind_run _ _ _ _ _ _ (tsp_loop_spec _ _ _ _ _)). cbv beta.
      apply (bind_run _ _ _ _ _ _ Hstitch). cbv beta.
      apply (bind_run _ _ [EvLogRuntime TIMER_MSEC_tsp] _ () _ eq_refl). cbv beta.
      rewrite (aggregate_loop_returns _ _ _ _ Hfit), bind_Done.
      simpl. rewrite app_nil_r. reflexivity.
Qed.

(** * Claims of the specification *)

Lemma runs_chosen (h : Heuristic) (route_parameters : RouteParameters)
    (number_of_locations : nat) (result_table : DistTableWrapper)
    (component : list NodeID) (res_route : list (list NodeID)) :
  2 <= length component ->
  runs h route_parameters number_of_locations result_table component res_route
  <-> h = chosen_heuristic route_parameters.
Proof.
  intros Hbig. unfold runs. rewrite HandleRequest_tsp_spec.
  unfold tsp_events_of, tours_of. rewrite filter_cons, filter_nil.
  rewrite (bool_decide_eq_true_2 (1 < length component)) by lia.
  destruct (decide (1 < length component)) as [_ | Hsmall]; [| lia].
  split.
  - intros [= _ Hh _]. symmetry. exact Hh.
  - intros ->. reflexivity.
Qed.

(** One pass of the loop body over a component with at least two locations:
    which heuristic it logs, calls and takes the tour from. *)
Lemma HandleRequest_tsp_selection (route_parameters : RouteParameters)
    (number_of_locations : nat) (result_table : DistTableWrapper)
    (component : list NodeID) (res_route : list (list NodeID)) :
  2 <= length component ->
  let algo := tsp_algo route_parameters in
  let waypoints := length (coordinates route_parameters) in
  (runs BF route_parameters number_of_locations result_table component res_route
   <-> algo = "BF"%string /\ waypoints < 10) /\
  (algo = "NN"%string ->
   runs NN route_parameters number_of_locations result_table component res_route) /\
  (algo = "FI"%string
   \/ (algo <> "BF"%string /\ algo <> "NN"%string /\ algo <> "FI"%string)
   \/ (algo = "BF"%string /\ 10 <= waypoints) ->
   runs FI route_parameters number_of_locations result_table component res_route).
Proof.
  intros Hbig algo waypoints.
  rewrite !(runs_chosen _ _ _ _ _ _ Hbig).
  unfold chosen_heuristic, BF_MAX_FEASABLE. fold algo. fold waypoints.
  destruct (String.eqb_spec algo "BF") as [HBF | HBF];
    destruct (String.eqb_spec algo "NN") as [HNN | HNN];
    case_bool_decide as Hfew; simpl;
    repeat split; try congruence; try lia; try tauto;
    try (intros [? ?]; congruence || lia);
    try (intros [? | [(? & ? & ?) | [? ?]]]; congruence || lia).
Qed.

(** How [HandleRequest] obtains the components. *)
Lemma HandleRequest_components_spec (number_of_locations : nat)
    (result_table : DistTableWrapper) :
  table_ result_table <> [] ->
  Forall (fun w => (w <= INVALID_EDGE_WEIGHT)%Z) (table_ result_table) ->
  HandleRequest_components number_of_locations result_table []
  = if bool_decide (INVALID_EDGE_WEIGHT ∈ table_ result_table)
    then SplitUnaccessibleLocations number_of_locations result_table []
    else ([], Done [seq 0 number_of_locations]).
Proof.
  intros Hne Hbound. unfold HandleRequest_components.
  destruct (max_element_is_sentinel _ _ Hne Hbound) as (largest & -> & Hiff).
  rewrite bind_mret. cbv zeta.
  destruct (decide (INVALID_EDGE_WEIGHT ∈ table_ result_table)) as [Hin | Hout].
  - rewrite (bool_decide_eq_true_2 _ Hin).
    rewrite (bool_decide_eq_true_2 (largest = INVALID_EDGE_WEIGHT)) by tauto.
    reflexivity.
  - rewrite (bool_decide_eq_false_2 _ Hout).
    rewrite (bool_decide_eq_false_2 (largest = INVALID_EDGE_WEIGHT)) by tauto.
    reflexivity.
Qed.

Lemma HandleRequest_components_cases (number_of_locations : nat)
    (result_table : DistTableWrapper) :
  table_ result_table <> [] ->
  HandleRequest_components number_of_locations result_table []
  = SplitUnaccessibleLocations number_of_locations result_table []
  \/ HandleRequest_components number_of_locations result_table []
     = ([], Done [seq 0 number_of_locations]).
Proof.
  intros Hne. unfold HandleRequest_components.
  destruct (table_ result_table) as [| x l]; [congruence |].
  unfold max_element. rewrite bind_mret. cbv zeta.
  case_bool_decide; auto.
Qed.

(** C4.  When the table of an [N]-location request is not empty, the
    components [HandleRequest] obtains, on either path, are a strict partition
    of the indices below [N]: none is empty, every index is in one, no index is
    in two, and none holds an index twice.  The SCC run is taken to number
    every location with one of its components and to count no component
    without a location. *)
Theorem components_partition (number_of_locations : nat)
    (result_table : DistTableWrapper) :
  let scc := scc_run (GetTable result_table) number_of_locations in
  DistTableWrapper_size result_table <> 0 ->
  DistTableWrapper_size result_table = number_of_locations * number_of_locations ->
  scc_ids_in_range scc number_of_locations ->
  scc_ids_onto scc number_of_locations ->
  exists t components,
    HandleRequest_components number_of_locations result_table []
      = (t, Done components) /\
    strict_partition number_of_locations components.
Proof.
  intros scc Hsize Hsquare Hrange Honto. unfold DistTableWrapper_size in *.
  assert (table_ result_table <> []) as Hne
    by (intros Heq; rewrite Heq in Hsize; apply Hsize; reflexivity).
  assert (0 < number_of_locations) as Hpos by nia.
  destruct (HandleRequest_components_cases number_of_locations _ Hne)
    as [-> | ->].
  - rewrite SplitUnaccessibleLocations_spec by exact Hrange.
    eexists _, _. split; [reflexivity |].
    apply members_partition; assumption.
  - eexists _, _. split; [reflexivity |]. apply iota_partition. exact Hpos.
Qed.

(** C5.  On a non-empty table whose entries do not exceed the sentinel: if no
    entry equals the sentinel, the components are the single list
    [0, 1, ..., N-1] and no call is made, in particular no SCC run; if some
    entry equals the sentinel, the components are those of
    [SplitUnaccessibleLocations], which starts with the SCC run. *)
Theorem fast_path_iff_no_sentinel (number_of_locations : nat)
    (result_table : DistTableWrapper) :
  table_ result_table <> [] ->
  Forall (fun w => (w <= INVALID_EDGE_WEIGHT)%Z) (table_ result_table) ->
  (INVALID_EDGE_WEIGHT ∉ table_ result_table ->
   HandleRequest_components number_of_locations result_table []
   = ([], Done [seq 0 number_of_locations])) /\
  (INVALID_EDGE_WEIGHT ∈ table_ result_table ->
   HandleRequest_components number_of_locations result_table []
   = SplitUnaccessibleLocations number_of_locations result_table [] /\
   exists t r,
     SplitUnaccessibleLocations number_of_locations result_table []
     = (EvTarjanRun number_of_locations :: t, r)).
Proof.
  intros Hne Hbound.
  rewrite (HandleRequest_components_spec _ _ Hne Hbound). split.
  - intros Hout. rewrite (bool_decide_eq_false_2 _ Hout). reflexivity.
  - intros Hin. rewrite (bool_decide_eq_true_2 _ Hin). split; [reflexivity |].
    unfold SplitUnaccessibleLocations. rewrite bind_emit. eauto.
Qed.

(** After a resolution that ends well every waypoint has a first candidate. *)
Lemma GetPhantomNodes_first_candidates (route_parameters : RouteParameters)
    (t : list Event) (v : PhantomNodeArray) :
  GetPhantomNodes route_parameters (fresh_array route_parameters) = (t, Done v) ->
  length v = length (coordinates route_parameters) /\
  forall n, n < length v -> is_Some (first_candidate v n).
Proof.
  intros Hrun. apply GetPhantomNodes_fresh in Hrun as (Hlen & Hslots & _).
  split; [exact Hlen |]. intros n Hn. rewrite Hlen in Hn.
  destruct (lookup_lt_is_Some_2 _ _ Hn) as [c Hc].
  destruct (Hslots n c Hc) as [Hslot Hnone].
  unfold first_candidate. rewrite Hslot. unfold resolved in *.
  destruct (usable_hint route_parameters n) as [hint |]; [simpl; eauto |].
  destruct (Hnone eq_refl) as [_ (first & Hfirst & _)].
  destruct (erase_first_if_many _); [discriminate | eauto].
Qed.

Lemma erase_first_if_many_length (found : list PhantomNode) :
  length (erase_first_if_many found)
  = if bool_decide (1 < length found) then length found - 1 else length found.
Proof.
  unfold erase_first_if_many. case_bool_decide; [| reflexivity].
  destruct found; simpl; lia.
Qed.

(** C6, as the code has it.  When resolution ends well it has filled exactly
    one slot per coordinate, slot [i] for coordinate [i], and no slot is empty.
    A waypoint that reuses its hint retains exactly the decoded node.  A
    waypoint that is searched retains what the search left, minus the first
    entry if there was more than one: [k] candidates leave [k - 1] for
    [k >= 2], so exactly one is retained precisely when the search returned
    one or two. *)
Theorem GetPhantomNodes_retains (route_parameters : RouteParameters)
    (t : list Event) (v : PhantomNodeArray) :
  GetPhantomNodes route_parameters (fresh_array route_parameters) = (t, Done v) ->
  length v = length (coordinates route_parameters) /\
  forall i c, coordinates route_parameters !! i = Some c ->
    exists slot, v !! i = Some slot /\ 1 <= length slot /\
      match usable_hint route_parameters i with
      | Some hint => slot = [DecodeFromBase64 hint]
      | None =>
          let found := IncrementalFindPhantomNodeForCoordinate c [] 1 in
          slot = erase_first_if_many found /\
          length slot = Nat.max 1 (length found - 1) /\
          (length slot = 1 <-> 1 <= length found <= 2)
      end.
Proof.
  intros Hrun. apply GetPhantomNodes_fresh in Hrun as (Hlen & Hslots & _).
  split; [exact Hlen |]. intros i c Hc.
  destruct (Hslots i c Hc) as [Hslot Hnone].
  exists (resolved route_parameters i c []). split; [exact Hslot |].
  unfold resolved in *.
  destruct (usable_hint route_parameters i) as [hint |] eqn:Hu.
  - simpl. split; [lia | reflexivity].
  - destruct (Hnone eq_refl) as [_ (first & Hfirst & _)].
    assert (1 <= length (erase_first_if_many
                           (IncrementalFindPhantomNodeForCoordinate c [] 1)))
      as Hkept.
    { destruct (erase_first_if_many _); [discriminate | simpl; lia]. }
    split; [exact Hkept |]. cbv zeta. split; [reflexivity |].
    rewrite erase_first_if_many_length in *.
    set (k := length (IncrementalFindPhantomNodeForCoordinate c [] 1)) in *.
    destruct (decide (1 < k)) as [Hmany | Hfew].
    + rewrite (bool_decide_eq_true_2 _ Hmany) in *. lia.
    + rewrite (bool_decide_eq_false_2 _ Hfew) in *. lia.
Qed.

(** C7.  When resolution ends well, each waypoint is in one of two cases.
    Either the request checksum equals the facade's, the waypoint has a
    non-empty hint and the decoded node is valid for the facade's number of
    nodes: then no search is made for it and its slot holds the decoded node.
    Or one of the three conditions fails: then the facade is searched for its
    coordinate and the slot holds what the search left. *)
Theorem hint_reused_iff_usable (route_parameters : RouteParameters)
    (t : list Event) (v : PhantomNodeArray) :
  GetPhantomNodes route_parameters (fresh_array route_parameters) = (t, Done v) ->
  forall i c, coordinates route_parameters !! i = Some c ->
  let usable hint :=
    check_sum route_parameters = GetCheckSum /\
    hints route_parameters !! i = Some hint /\ hint <> ""%string /\
    is_valid (DecodeFromBase64 hint) GetNumberOfNodes = true in
  (exists hint, usable hint /\
     v !! i = Some [DecodeFromBase64 hint] /\
     forall c' k, EvIncrementalFind i c' k ∉ t)
  \/
  ((forall hint, ~ usable hint) /\
   EvIncrementalFind i c 1 ∈ t /\
   v !! i = Some (erase_first_if_many
                    (IncrementalFindPhantomNodeForCoordinate c [] 1))).
Proof.
  intros Hrun i c Hc usable.
  apply GetPhantomNodes_fresh in Hrun as (_ & Hslots & Hevents).
  destruct (Hslots i c Hc) as [Hslot Hnone]. unfold resolved in Hslot.
  destruct (usable_hint route_parameters i) as [hint |] eqn:Hu.
  - left. exists hint. split; [apply usable_hint_Some; exact Hu |].
    split; [exact Hslot |].
    intros c' k Hin. apply Hevents in Hin. congruence.
  - right. split.
    + intros hint Hhint. apply usable_hint_Some in Hhint. congruence.
    + destruct (Hnone eq_refl) as [Hfind _]. auto.
Qed.

Lemma tour_legs_length (ps : list PhantomNode) :
  ps <> [] -> length (tour_legs ps) = length ps.
Proof.
  intros Hne. unfold tour_legs, consecutive_legs, closing_leg.
  rewrite length_app, length_zip_with.
  destruct ps as [| p ps]; [congruence |].
  destruct (last (p :: ps)) eqn:Hlast; [| apply last_None in Hlast; discriminate].
  change (tail (p :: ps)) with ps. change (head (p :: ps)) with (Some p).
  change (length (p :: ps)) with (S (length ps)).
  rewrite Nat.min_r by lia. simpl. lia.
Qed.

Lemma tour_legs_consecutive (ps : list PhantomNode) (i : nat) (a b : PhantomNode) :
  ps !! i = Some a -> ps !! (i + 1) = Some b ->
  tour_legs ps !! i = Some (mkPhantomNodes a b).
Proof.
  intros Ha Hb. unfold tour_legs, consecutive_legs.
  assert (zip_with mkPhantomNodes ps (tail ps) !! i = Some (mkPhantomNodes a b))
    as Hzip.
  { apply lookup_zip_with_Some. exists a, b. split; [reflexivity |].
    split; [exact Ha |]. rewrite lookup_tail.
    replace (S i) with (i + 1) by lia. exact Hb. }
  apply lookup_app_l_Some. exact Hzip.
Qed.

Lemma tour_legs_closing (ps : list PhantomNode) (a b : PhantomNode) :
  last ps = Some a -> head ps = Some b ->
  tour_legs ps !! (length ps - 1) = Some (mkPhantomNodes a b).
Proof.
  intros Ha Hb. unfold tour_legs, consecutive_legs, closing_leg.
  rewrite Ha, Hb.
  assert (length (zip_with mkPhantomNodes ps (tail ps)) = length ps - 1) as Hlen.
  { rewrite length_zip_with. destruct ps as [| p ps]; [reflexivity |].
    change (tail (p :: ps)) with ps.
    change (length (p :: ps)) with (S (length ps)).
    rewrite Nat.min_r by lia. lia. }
  rewrite lookup_app_r by lia. rewrite Hlen, Nat.sub_diag. reflexivity.
Qed.

(** C8.  For a trip of [k >= 2] waypoints that all have a candidate,
    [ComputeRoute] appends exactly [k] legs to the route and hands them to the
    shortest-path search: leg [i], for [i + 1 < k], goes from the candidate of
    [trip[i]] to that of [trip[i+1]], and the last leg goes from the candidate
    of [trip[k-1]] back to that of [trip[0]]. *)
Theorem ComputeRoute_legs (phantom_node_vector : PhantomNodeArray)
    (route_parameters : RouteParameters) (trip : list NodeID)
    (min_route : InternalRouteResult) :
  2 <= length trip ->
  (forall n, n ∈ trip -> is_Some (first_candidate phantom_node_vector n)) ->
  exists legs,
    ComputeRoute phantom_node_vector route_parameters trip min_route
    = ([EvShortestPath (segment_end_coordinates min_route ++ legs)
                       (uturns route_parameters)],
       Done (shortest_path (segment_end_coordinates min_route ++ legs)
                           (uturns route_parameters)
                           (add_legs min_route legs))) /\
    length legs = length trip /\
    (forall i from to, i + 1 < length trip ->
       trip !! i = Some from -> trip !! (i + 1) = Some to ->
       exists a b,
         first_candidate phantom_node_vector from = Some a /\
         first_candidate phantom_node_vector to = Some b /\
         legs !! i = Some (mkPhantomNodes a b)) /\
    (forall from to,
       trip !! (length trip - 1) = Some from -> trip !! 0 = Some to ->
       exists a b,
         first_candidate phantom_node_vector from = Some a /\
         first_candidate phantom_node_vector to = Some b /\
         legs !! (length trip - 1) = Some (mkPhantomNodes a b)).
Proof.
  intros Hlen Hall.
  destruct (trip_phantoms_exists _ _ Hall) as [ps Hps].
  assert (trip <> []) as Hne by (destruct trip; [simpl in Hlen; lia | discriminate]).
  pose proof (Forall2_length _ _ _ Hps) as Hlens.
  assert (ps <> []) as Hpne by (destruct ps; [simpl in Hlens; lia | discriminate]).
  exists (tour_legs ps).
  split; [apply ComputeRoute_spec; assumption |].
  split; [rewrite tour_legs_length by exact Hpne; lia |]. split.
  - intros i from to Hi Hfrom Hto.
    destruct (Forall2_lookup_l _ _ _ _ _ Hps Hfrom) as (a & Ha & Hca).
    destruct (Forall2_lookup_l _ _ _ _ _ Hps Hto) as (b & Hb & Hcb).
    exists a, b. split; [exact Hca |]. split; [exact Hcb |].
    apply tour_legs_consecutive; assumption.
  - intros from to Hfrom Hto.
    destruct (Forall2_lookup_l _ _ _ _ _ Hps Hfrom) as (a & Ha & Hca).
    destruct (Forall2_lookup_l _ _ _ _ _ Hps Hto) as (b & Hb & Hcb).
    exists a, b. split; [exact Hca |]. split; [exact Hcb |].
    rewrite Hlens. apply tour_legs_closing.
    + rewrite last_lookup. rewrite <- Hlens.
      replace (pred (length trip)) with (length trip - 1) by lia. exact Ha.
    + rewrite head_lookup. exact Hb.
Qed.

Lemma trip_phantoms_of (phantom_node_vector : PhantomNodeArray)
    (trip : list NodeID) (ps : list PhantomNode) :
  trip_phantoms phantom_node_vector trip ps ->
  phantoms_of phantom_node_vector trip = ps.
Proof.
  unfold phantoms_of.
  induction 1 as [| n p trip ps Hp _ IH]; [reflexivity |].
  rewrite <- IH. simpl. rewrite Hp. reflexivity.
Qed.

Lemma stitched_routes (route_parameters : RouteParameters)
    (v : PhantomNodeArray) (result_table : DistTableWrapper)
    (components : list (list NodeID)) (pss : list (list PhantomNode)) :
  trips_phantoms v (tours_of route_parameters (length v) result_table components)
                 pss ->
  map (stitched route_parameters) pss
  = round_trip_routes route_parameters v result_table components.
Proof.
  unfold tours_of, round_trip_routes.
  generalize (filter (fun component : list NodeID => 1 < length component)
                     components) as big.
  intros big. revert pss. induction big as [| component big IH]; intros pss Hpss.
  - apply Forall2_nil_inv_l in Hpss as ->. reflexivity.
  - apply Forall2_cons_inv_l in Hpss as (ps & pss' & [_ Hps] & Hpss' & ->).
    simpl. rewrite (IH _ Hpss'). unfold component_route at 2.
    rewrite (trip_phantoms_of _ _ _ Hps). reflexivity.
Qed.

Lemma total_length_round_trip (route_parameters : RouteParameters)
    (v : PhantomNodeArray) (result_table : DistTableWrapper)
    (components : list (list NodeID)) :
  total_length (round_trip_routes route_parameters v result_table components)
  = sum_of_costs route_parameters v result_table components.
Proof.
  unfold round_trip_routes, sum_of_costs.
  induction components as [| component components IH]; [reflexivity |].
  rewrite filter_cons. simpl foldr. unfold component_cost at 1.
  destruct (decide (1 < length component)) as [Hbig | Hsmall].
  - rewrite (bool_decide_eq_true_2 _ Hbig). simpl. rewrite IH. reflexivity.
  - rewrite (bool_decide_eq_false_2 _ Hsmall). rewrite IH. reflexivity.
Qed.

(** A request that ends with status 200, in terms of the components. *)
Lemma handled_200 (route_parameters : RouteParameters)
    (json_result json_result' : json.Object) (t : list Event) :
  HandleRequest route_parameters json_result = (t, Done (200%Z, json_result')) ->
  exists t_resolve t_split t_stitch v components,
    let result_table := mkDistTableWrapper (distance_table v) (length v) in
    let routes := round_trip_routes route_parameters v result_table components in
    GetPhantomNodes route_parameters (fresh_array route_parameters)
      = (t_resolve, Done v) /\
    distance_table v <> [] /\
    HandleRequest_components (length v) result_table [] = (t_split, Done components) /\
    ComputeRoutes v route_parameters
      (tours_of route_parameters (length v) result_table components) []
      = (t_stitch, Done routes) /\
    t = t_resolve ++ [EvDistanceTable v] ++ t_split
        ++ tsp_events route_parameters components ++ t_stitch
        ++ [EvLogRuntime TIMER_MSEC_tsp] ++ map EvDescriptorRun routes /\
    json_result'
    = SetDistanceOutput (sum_of_costs route_parameters v result_table components)
        (rendered route_parameters routes
                  (SetRuntimeOutput TIMER_MSEC_tsp json_result)).
Proof.
  intros Hrun. apply HandleRequest_handled in Hrun.
  inversion Hrun as
    [| | t_r t_c t_s v components routes result_table Hcheck Hresolve Hne
         Hsplit Hstitch Hfit]; subst.
  destruct (ComputeRoutes_inv _ _ _ _ _ _ Hstitch) as [pss Hpss].
  pose proof (ComputeRoutes_spec _ route_parameters _ _ Hpss []) as Hspec.
  rewrite Hstitch in Hspec. injection Hspec as Htrace Hroutes.
  simpl in Hroutes. rewrite (stitched_routes _ _ _ _ _ Hpss) in Hroutes.
  subst routes. exists t_r, t_c, t_s, v, components. cbv zeta.
  rewrite <- total_length_round_trip. auto 10.
Qed.

(** C9.  In a response with status 200 the reported distance is the sum, over
    the components, of the length of the component's route where the component
    has at least two locations and of 0 where it has not.  If no component has
    two locations, no tour is made, no shortest-path query is issued, nothing is
    rendered, and the distance is 0. *)
Theorem distance_is_sum_of_component_costs (route_parameters : RouteParameters)
    (json_result json_result' : json.Object) (t : list Event) :
  HandleRequest route_parameters json_result = (t, Done (200%Z, json_result')) ->
  exists t_resolve t_split v components,
    let result_table := mkDistTableWrapper (distance_table v) (length v) in
    GetPhantomNodes route_parameters (fresh_array route_parameters)
      = (t_resolve, Done v) /\
    HandleRequest_components (length v) result_table [] = (t_split, Done components) /\
    json_result' !! "distance"%string
    = Some (json.Number
              (inject_Z (sum_of_costs route_parameters v result_table components))) /\
    (forall component, length component < 2 ->
       component_cost route_parameters v result_table component = 0%Z) /\
    ((forall component, component ∈ components -> length component < 2) ->
     tours_of route_parameters (length v) result_table components = [] /\
     t = t_resolve ++ [EvDistanceTable v] ++ t_split
         ++ [EvLogRuntime TIMER_MSEC_tsp] /\
     json_result' !! "distance"%string = Some (json.Number (inject_Z 0))).
Proof.
  intros Hrun.
  apply handled_200 in Hrun
    as (t_r & t_c & t_s & v & components & Hresolve & Hne & Hsplit & Hstitch
        & -> & ->).
  exists t_r, t_c, v, components. cbv zeta.
  split; [exact Hresolve |]. split; [exact Hsplit |].
  split; [apply lookup_insert_eq |]. split.
  - intros component Hsmall. unfold component_cost.
    rewrite bool_decide_eq_false_2 by lia. reflexivity.
  - intros Hsingle.
    assert (filter (fun component : list NodeID => 1 < length component)
                   components = []) as Hnone.
    { clear -Hsingle.
      induction components as [| component components IH]; [reflexivity |].
      rewrite filter_cons_False
        by (specialize (Hsingle component ltac:(apply elem_of_cons; auto)); lia).
      apply IH. intros c Hc. apply Hsingle. apply elem_of_cons. auto. }
    assert (tsp_events route_parameters components = []) as Hquiet.
    { unfold tsp_events. clear -Hsingle.
      induction components as [| component components IH]; [reflexivity |].
      simpl. unfold tsp_events_of at 1.
      rewrite bool_decide_eq_false_2
        by (specialize (Hsingle component ltac:(apply elem_of_cons; auto)); lia).
      apply IH. intros c Hc. apply Hsingle. apply elem_of_cons. auto. }
    assert (sum_of_costs route_parameters v
              {| table_ := distance_table v; number_of_nodes_ := length v |}
              components = 0%Z) as Hzero.
    { rewrite <- total_length_round_trip. unfold round_trip_routes.
      rewrite Hnone. reflexivity. }
    unfold tours_of, round_trip_routes in *. rewrite Hnone in *.
    injection Hstitch as <-. rewrite Hquiet, Hzero. simpl.
    split; [reflexivity |]. split; [reflexivity |]. apply lookup_insert_eq.
Qed.

(** ** The result object *)

Lemma rendered_preserves_absent (route_parameters : RouteParameters)
    (key : string) (routes : list InternalRouteResult) :
  (forall r j, j !! key = None -> descriptor_Run route_parameters r j !! key = None) ->
  forall j, j !! key = None -> rendered route_parameters routes j !! key = None.
Proof.
  intros Hrun. unfold rendered.
  induction routes as [| r routes IH]; intros j Hj; [exact Hj |].
  simpl. apply IH. apply Hrun. exact Hj.
Qed.

(** C10.  Let the object handed to [HandleRequest] have no "loc_permutation"
    entry and let the descriptor add none.  Then the object of any response
    has none: it is either the object as it came in (status 400), or that
    object with "runtime" set, rendered by the descriptor once per route, and
    "distance" set last.  In particular it is never an object that
    [SetLocPermutationOutput] has written to. *)
Theorem loc_permutation_never_set (route_parameters : RouteParameters)
    (json_result json_result' : json.Object) (t : list Event) (status : Z) :
  HandleRequest route_parameters json_result = (t, Done (status, json_result')) ->
  json_result !! "loc_permutation"%string = None ->
  (forall r j, j !! "loc_permutation"%string = None ->
     descriptor_Run route_parameters r j !! "loc_permutation"%string = None) ->
  json_result' !! "loc_permutation"%string = None /\
  (json_result' = json_result \/
   exists dist routes,
     json_result'
     = <["distance"%string := json.Number (inject_Z dist)]>
         (rendered route_parameters routes
            (<["runtime"%string := json.Number (to_float TIMER_MSEC_tsp)]>
               json_result))) /\
  (forall loc_permutation j,
     json_result' <> SetLocPermutationOutput loc_permutation j).
Proof.
  intros Hrun Hin Hdescriptor.
  assert (json_result' !! "loc_permutation"%string = None /\
          (json_result' = json_result \/
           exists dist routes,
             json_result'
             = <["distance"%string := json.Number (inject_Z dist)]>
                 (rendered route_parameters routes
                    (<["runtime"%string := json.Number (to_float TIMER_MSEC_tsp)]>
                       json_result)))) as [Habsent Hshape].
  { apply HandleRequest_handled in Hrun.
    destruct Hrun as [| | t_r t_c t_s v components routes result_table];
      [auto | auto |].
    split; [| right; eexists _, _; reflexivity].
    unfold SetDistanceOutput, SetRuntimeOutput.
    rewrite lookup_insert_ne by discriminate.
    apply rendered_preserves_absent; [exact Hdescriptor |].
    rewrite lookup_insert_ne by discriminate. exact Hin. }
  split; [exact Habsent |]. split; [exact Hshape |].
  intros loc_permutation j Heq. rewrite Heq in Habsent.
  unfold SetLocPermutationOutput in Habsent.
  rewrite lookup_insert_eq in Habsent. discriminate.
Qed.

Lemma shortest_path_queries_app (t1 t2 : list Event) :
  shortest_path_queries (t1 ++ t2)
  = shortest_path_queries t1 ++ shortest_path_queries t2.
Proof.
  unfold shortest_path_queries. apply omap_app.
Qed.

(** [ComputeRoutes] queries the search engine twice per trip: once in
    [ComputeRoute] and once more on the route it has just stored. *)
Lemma ComputeRoutes_queries_twice (phantom_node_vector : PhantomNodeArray)
    (route_parameters : RouteParameters) (trips : list (list NodeID))
    (route routes : list InternalRouteResult) (t : list Event) :
  ComputeRoutes phantom_node_vector route_parameters trips route
    = (t, Done routes) ->
  length (shortest_path_queries t) = 2 * length trips.
Proof.
  intros Hrun. destruct (ComputeRoutes_inv _ _ _ _ _ _ Hrun) as [pss Hpss].
  rewrite (ComputeRoutes_spec _ route_parameters _ _ Hpss route) in Hrun.
  injection Hrun as <- _.
  rewrite (Forall2_length _ _ _ Hpss). clear Hpss.
  induction pss as [| ps pss IH]; [reflexivity |].
  change (concat (map ?f (ps :: pss))) with (f ps ++ concat (map f pss)).
  rewrite shortest_path_queries_app, length_app, IH.
  simpl. lia.
Qed.

Lemma shortest_path_queries_none (t : list Event) :
  Forall not_a_query t -> shortest_path_queries t = [].
Proof.
  unfold shortest_path_queries.
  induction 1 as [| e t He _ IH]; [reflexivity |].
  change (e :: t) with ([e] ++ t). rewrite omap_app, IH.
  destruct e; simpl in He; [reflexivity .. | contradiction | | |]; reflexivity.
Qed.

Lemma HandleRequest_components_only_partitions (number_of_locations : nat)
    (result_table : DistTableWrapper) (components : list (list NodeID)) :
  only partition_event
       (HandleRequest_components number_of_locations result_table components).
Proof.
  unfold HandleRequest_components. apply only_bind.
  - unfold max_element. destruct (table_ result_table);
      [apply only_undefined | apply only_mret].
  - intros largest. case_bool_decide; [| apply only_mret].
    unfold SplitUnaccessibleLocations.
    apply only_bind; [apply only_emit; exact I |]. intros _.
    apply only_bind.
    + apply only_for_each. intros j cs. apply only_mret.
    + intros cs. apply only_for_each. intros i cs'.
      apply only_bind; [apply only_at_ |]. intros c. apply only_mret.
Qed.

Lemma tsp_events_not_queries (route_parameters : RouteParameters)
    (components : list (list NodeID)) :
  Forall not_a_query (tsp_events route_parameters components).
Proof.
  unfold tsp_events. induction components as [| component components IH].
  - apply Forall_nil_2.
  - simpl. apply Forall_app. split; [| exact IH].
    unfold tsp_events_of. case_bool_decide; repeat constructor.
Qed.

(** A request that ends with status 200 has queried the search engine for a
    shortest path twice for every component that has a tour. *)
Lemma HandleRequest_queries_twice (route_parameters : RouteParameters)
    (json_result json_result' : json.Object) (t : list Event) :
  HandleRequest route_parameters json_result = (t, Done (200%Z, json_result')) ->
  exists t_resolve t_split v components,
    let result_table := mkDistTableWrapper (distance_table v) (length v) in
    GetPhantomNodes route_parameters (fresh_array route_parameters)
      = (t_resolve, Done v) /\
    HandleRequest_components (length v) result_table [] = (t_split, Done components) /\
    length (shortest_path_queries t)
    = 2 * length (tours_of route_parameters (length v) result_table components).
Proof.
  intros Hrun.
  apply handled_200 in Hrun
    as (t_r & t_c & t_s & v & components & Hresolve & Hne & Hsplit & Hstitch
        & -> & _).
  exists t_r, t_c, v, components. cbv zeta.
  split; [exact Hresolve |]. split; [exact Hsplit |].
  rewrite !shortest_path_queries_app.
  rewrite (shortest_path_queries_none t_r).
  2: { pose proof (GetPhantomNodes_only_resolves route_parameters
                     (fresh_array route_parameters)) as Honly.
       unfold only in Honly. rewrite Hresolve in Honly.
       eapply Forall_impl; [exact Honly |]. intros [] He; simpl in *; tauto. }
  rewrite (shortest_path_queries_none t_c).
  2: { pose proof (HandleRequest_components_only_partitions (length v)
                     {| table_ := distance_table v; number_of_nodes_ := length v |}
                     []) as Honly.
       unfold only in Honly. rewrite Hsplit in Honly.
       eapply Forall_impl; [exact Honly |]. intros [] He; simpl in *; tauto. }
  rewrite (shortest_path_queries_none (tsp_events _ _))
    by apply tsp_events_not_queries.
  rewrite (shortest_path_queries_none (map EvDescriptorRun _)).
  2: { apply Forall_forall. intros e He. apply list_elem_of_fmap in He as (r & -> & _).
       exact I. }
  simpl. rewrite app_nil_r.
  eapply ComputeRoutes_queries_twice. exact Hstitch.
Qed.

(** ** Requests that are answered *)

Lemma trips_phantoms_exists (phantom_node_vector : PhantomNodeArray)
    (trips : list (list NodeID)) :
  (forall trip, trip ∈ trips ->
     trip <> [] /\
     forall n, n ∈ trip -> is_Some (first_candidate phantom_node_vector n)) ->
  exists pss, trips_phantoms phantom_node_vector trips pss.
Proof.
  induction trips as [| trip trips IH]; intros Hall.
  - exists []. apply Forall2_nil_2.
  - destruct (Hall trip) as [Hne Hcand]; [apply elem_of_cons; auto |].
    destruct (trip_phantoms_exists _ _ Hcand) as [ps Hps].
    destruct IH as [pss Hpss].
    { intros trip' Hin. apply Hall. apply elem_of_cons. auto. }
    exists (ps :: pss). apply Forall2_cons_2; auto.
Qed.

Lemma HandleRequest_components_returns (number_of_locations : nat)
    (result_table : DistTableWrapper) :
  table_ result_table <> [] ->
  scc_ids_in_range (scc_run (GetTable result_table) number_of_locations)
                   number_of_locations ->
  exists t components,
    HandleRequest_components number_of_locations result_table []
      = (t, Done components) /\
    forall component n,
      component ∈ components -> n ∈ component -> n < number_of_locations.
Proof.
  intros Hne Hrange.
  destruct (HandleRequest_components_cases number_of_locations _ Hne)
    as [-> | ->].
  - rewrite SplitUnaccessibleLocations_spec by exact Hrange.
    eexists _, _. split; [reflexivity |].
    intros component n Hin Hn.
    apply list_elem_of_fmap in Hin as (c & -> & _).
    apply elem_of_members in Hn. tauto.
  - eexists _, _. split; [reflexivity |].
    intros component n Hin Hn. apply list_elem_of_singleton in Hin as ->.
    apply elem_of_seq in Hn. lia.
Qed.

Lemma HandleRequest_returns (route_parameters : RouteParameters)
    (json_result : json.Object) (t_resolve : list Event) (v : PhantomNodeArray) :
  check_all_coordinates (coordinates route_parameters) = true ->
  GetPhantomNodes route_parameters (fresh_array route_parameters)
    = (t_resolve, Done v) ->
  distance_table v <> [] ->
  collaborators_behave route_parameters v ->
  exists t json_result',
    HandleRequest route_parameters json_result = (t, Done (200%Z, json_result')).
Proof.
  intros Hcheck Hresolve Hne (Hrange & Hperm & Hsums).
  set (result_table := mkDistTableWrapper (distance_table v) (length v)) in *.
  destruct (HandleRequest_components_returns (length v) result_table Hne Hrange)
    as (t_c & components & Hsplit & Hbelow).
  destruct (GetPhantomNodes_first_candidates _ _ _ Hresolve) as [Hlen Hslots].
  destruct (trips_phantoms_exists v
              (tours_of route_parameters (length v) result_table components))
    as [pss Hpss].
  { intros trip Hin. unfold tours_of in Hin.
    apply list_elem_of_fmap in Hin as (component & -> & Hin).
    apply list_elem_of_filter in Hin as [Hbig Hin].
    specialize (Hperm component Hbig). split.
    - intros Hnil. rewrite Hnil in Hperm.
      apply Permutation_length in Hperm. simpl in Hperm. lia.
    - intros n Hn. rewrite Hperm in Hn.
      apply Hslots. exact (Hbelow _ _ Hin Hn). }
  pose proof (ComputeRoutes_spec _ route_parameters _ _ Hpss []) as Hstitch.
  simpl app in Hstitch. rewrite (stitched_routes _ _ _ _ _ Hpss) in Hstitch.
  eexists _, _. apply HandleRequest_handled.
  eapply handled_round_trip; eauto.
Qed.

Lemma check_all_coordinates_false (coords : list FixedPointCoordinate) :
  check_all_coordinates coords = false <->
  exists c, c ∈ coords /\ coordinate_is_valid c = false.
Proof.
  unfold check_all_coordinates. induction coords as [| c coords IH]; simpl.
  - split; [discriminate |]. intros (c & Hin & _).
    apply elem_of_nil in Hin. contradiction.
  - destruct (coordinate_is_valid c) eqn:Hc; simpl.
    + rewrite IH. split.
      * intros (c' & Hin & Hc'). exists c'. split; [| exact Hc'].
        apply elem_of_cons. auto.
      * intros (c' & Hin & Hc'). apply elem_of_cons in Hin as [-> | Hin];
          [congruence | eauto].
    + split; [| reflexivity]. intros _. exists c. split; [| exact Hc].
      apply elem_of_cons. auto.
Qed.

(** C3.  [HandleRequest] answers 400 without any call when a coordinate fails
    validation.  Otherwise, once the locations are resolved (by calls of the
    resolver only): if the distance table is empty it answers 400 after the
    table request and nothing else; if the table is not empty it answers 200
    whenever the remaining collaborators behave, however many components
    there are, and never anything but 200.  No other status is returned. *)
Theorem HandleRequest_status (route_parameters : RouteParameters)
    (json_result : json.Object) :
  ((exists c, c ∈ coordinates route_parameters /\ coordinate_is_valid c = false) ->
   HandleRequest route_parameters json_result = ([], Done (400%Z, json_result)))
  /\
  (forall t_resolve v,
     check_all_coordinates (coordinates route_parameters) = true ->
     GetPhantomNodes route_parameters (fresh_array route_parameters)
       = (t_resolve, Done v) ->
     Forall resolution_event t_resolve /\
     (distance_table v = [] ->
      HandleRequest route_parameters json_result
      = (t_resolve ++ [EvDistanceTable v], Done (400%Z, json_result))) /\
     (distance_table v <> [] ->
      (collaborators_behave route_parameters v ->
       exists t json_result',
         HandleRequest route_parameters json_result
         = (t, Done (200%Z, json_result'))) /\
      (forall t status json_result',
         HandleRequest route_parameters json_result
         = (t, Done (status, json_result')) -> status = 200%Z)))
  /\
  (forall t status json_result',
     HandleRequest route_parameters json_result = (t, Done (status, json_result')) ->
     status = 200%Z \/ status = 400%Z).
Proof.
  split; [| split].
  - intros Hbad. apply HandleRequest_handled.
    apply handled_invalid_input. apply check_all_coordinates_false. exact Hbad.
  - intros t_r v Hcheck Hresolve. split; [| split].
    + pose proof (GetPhantomNodes_only_resolves route_parameters
                    (fresh_array route_parameters)) as Honly.
      unfold only in Honly. rewrite Hresolve in Honly. exact Honly.
    + intros Hempty. apply HandleRequest_handled.
      apply handled_empty_table; assumption.
    + intros Hne. split.
      * intros Hbehave. eapply HandleRequest_returns; eassumption.
      * intros t status json_result' Hrun. apply HandleRequest_handled in Hrun.
        destruct Hrun as [Hbad | t_r' v' _ Hresolve' Hempty |]; [| | reflexivity].
        -- congruence.
        -- rewrite Hresolve in Hresolve'. injection Hresolve' as _ <-.
           contradiction.
  - intros t status json_result' Hrun. apply HandleRequest_handled in Hrun.
    destruct Hrun; auto.
Qed.

(** ** Heuristic dispatch in a request *)

Lemma tsp_calls_app (t1 t2 : list Event) :
  tsp_calls (t1 ++ t2) = tsp_calls t1 ++ tsp_calls t2.
Proof. unfold tsp_calls. apply omap_app. Qed.

Lemma tsp_calls_other_phase (t : list Event) :
  Forall (fun e => phase e <> 3) t -> tsp_calls t = [].
Proof.
  unfold tsp_calls. induction 1 as [| e t He _ IH]; [reflexivity |].
  change (e :: t) with ([e] ++ t). rewrite omap_app, IH.
  destruct e; simpl in He; try reflexivity; congruence.
Qed.

Lemma tsp_calls_tsp_events (route_parameters : RouteParameters)
    (components : list (list NodeID)) :
  tsp_calls (tsp_events route_parameters components)
  = map (fun component => (chosen_heuristic route_parameters, component))
        (filter (fun component => 1 < length component) components).
Proof.
  unfold tsp_events. induction components as [| component components IH];
    [reflexivity |].
  simpl concat. rewrite tsp_calls_app, IH, filter_cons. unfold tsp_events_of.
  destruct (decide (1 < length component)) as [Hbig | Hsmall].
  - rewrite (bool_decide_eq_true_2 _ Hbig). reflexivity.
  - rewrite (bool_decide_eq_false_2 _ Hsmall). reflexivity.
Qed.

Lemma GetPhantomNodes_phase (route_parameters : RouteParameters)
    (v v' : PhantomNodeArray) (t : list Event) :
  GetPhantomNodes route_parameters v = (t, Done v') ->
  Forall (fun e => phase e = 0) t.
Proof.
  intros Hrun.
  pose proof (GetPhantomNodes_only_resolves route_parameters v) as Honly.
  unfold only in Honly. rewrite Hrun in Honly.
  eapply Forall_impl; [exact Honly |].
  intros [] He; simpl in *; tauto.
Qed.

Lemma HandleRequest_components_phase (number_of_locations : nat)
    (result_table : DistTableWrapper) (components0 components : list (list NodeID))
    (t : list Event) :
  HandleRequest_components number_of_locations result_table components0
    = (t, Done components) ->
  Forall (fun e => phase e = 2) t.
Proof.
  intros Hrun.
  pose proof (HandleRequest_components_only_partitions number_of_locations
                result_table components0) as Honly.
  unfold only in Honly. rewrite Hrun in Honly.
  eapply Forall_impl; [exact Honly |].
  intros [] He; simpl in *; tauto.
Qed.

Lemma tsp_events_phase (route_parameters : RouteParameters)
    (components : list (list NodeID)) :
  Forall (fun e => phase e = 3) (tsp_events route_parameters components).
Proof.
  unfold tsp_events. induction components as [| component components IH].
  - apply Forall_nil_2.
  - simpl. apply Forall_app. split; [| exact IH].
    unfold tsp_events_of. case_bool_decide; repeat constructor.
Qed.

Lemma ComputeRoutes_phase (phantom_node_vector : PhantomNodeArray)
    (route_parameters : RouteParameters) (trips : list (list NodeID))
    (route routes : list InternalRouteResult) (t : list Event) :
  ComputeRoutes phantom_node_vector route_parameters trips route
    = (t, Done routes) ->
  Forall (fun e => phase e = 4) t.
Proof.
  intros Hrun. destruct (ComputeRoutes_inv _ _ _ _ _ _ Hrun) as [pss Hpss].
  rewrite (ComputeRoutes_spec _ route_parameters _ _ Hpss route) in Hrun.
  injection Hrun as <- _. clear Hpss.
  induction pss as [| ps pss IH]; [apply Forall_nil_2 |].
  simpl. repeat constructor. exact IH.
Qed.

Lemma descriptor_runs_phase (routes : list InternalRouteResult) :
  Forall (fun e => phase e = 6) (map EvDescriptorRun routes).
Proof.
  apply Forall_forall. intros e He.
  apply list_elem_of_fmap in He as (r & -> & _). reflexivity.
Qed.

(** The heuristic calls of a request that is answered with 200. *)
Lemma tsp_calls_of_request (route_parameters : RouteParameters)
    (t_resolve t_split t_stitch : list Event) (v : PhantomNodeArray)
    (components : list (list NodeID)) (routes : list InternalRouteResult) :
  GetPhantomNodes route_parameters (fresh_array route_parameters)
    = (t_resolve, Done v) ->
  HandleRequest_components (length v)
    (mkDistTableWrapper (distance_table v) (length v)) []
    = (t_split, Done components) ->
  ComputeRoutes v route_parameters
    (tours_of route_parameters (length v)
              (mkDistTableWrapper (distance_table v) (length v)) components) []
    = (t_stitch, Done routes) ->
  tsp_calls (t_resolve ++ [EvDistanceTable v] ++ t_split
             ++ tsp_events route_parameters components ++ t_stitch
             ++ [EvLogRuntime TIMER_MSEC_tsp] ++ map EvDescriptorRun routes)
  = map (fun component => (chosen_heuristic route_parameters, component))
        (filter (fun component => 1 < length component) components).
Proof.
  intros Hresolve Hsplit Hstitch.
  rewrite !tsp_calls_app, tsp_calls_tsp_events.
  rewrite (tsp_calls_other_phase t_resolve).
  2: { eapply Forall_impl; [exact (GetPhantomNodes_phase _ _ _ _ Hresolve) |].
       intros e He. simpl in *. lia. }
  rewrite (tsp_calls_other_phase t_split).
  2: { eapply Forall_impl;
         [exact (HandleRequest_components_phase _ _ _ _ _ Hsplit) |].
       intros e He. simpl in *. lia. }
  rewrite (tsp_calls_other_phase t_stitch).
  2: { eapply Forall_impl; [exact (ComputeRoutes_phase _ _ _ _ _ _ Hstitch) |].
       intros e He. simpl in *. lia. }
  rewrite (tsp_calls_other_phase (map EvDescriptorRun _)).
  2: { eapply Forall_impl; [apply descriptor_runs_phase |].
       intros e He. simpl in *. lia. }
  simpl. rewrite app_nil_r. reflexivity.
Qed.




(** * Further properties of the plugin's functions *)

(** ** GetPhantomNodes *)

Lemma usable_hint_decoded (route_parameters : RouteParameters) (i : nat)
    (hint : string) :
  usable_hint route_parameters i = Some hint ->
  decoded_hint route_parameters i = Some hint.
Proof.
  unfold usable_hint. destruct (decoded_hint route_parameters i) as [h |];
    [| discriminate].
  destruct (is_valid _ _); [intros [= ->]; reflexivity | discriminate].
Qed.

Lemma GetPhantomNodes_loop_trace (route_parameters : RouteParameters)
    (cs : list FixedPointCoordinate) :
  forall (m : nat) (v v' : PhantomNodeArray) (t : list Event),
  drop m (coordinates route_parameters) = cs ->
  m + length cs <= length v ->
  for_each (GetPhantomNodes_body route_parameters
              (bool_decide (check_sum route_parameters = GetCheckSum)))
           (seq m (length cs)) v = (t, Done v') ->
  t = concat (imap (fun i c => waypoint_events route_parameters (m + i) c) cs).
Proof.
  induction cs as [| c cs IH]; intros m v v' t Hdrop Hlen Hrun.
  - injection Hrun as <- _. reflexivity.
  - assert (coordinates route_parameters !! m = Some c) as Hc.
    { pose proof (lookup_drop (coordinates route_parameters) m 0) as Hlookup.
      rewrite Hdrop, Nat.add_0_r in Hlookup. symmetry. exact Hlookup. }
    assert (drop (S m) (coordinates route_parameters) = cs) as Hdrop'.
    { rewrite (drop_S _ _ _ Hc) in Hdrop. injection Hdrop as Hdrop.
      exact Hdrop. }
    simpl length in *. change (seq m (S (length cs)))
      with (m :: seq (S m) (length cs)) in Hrun.
    change (for_each ?b (m :: ?l) v) with (b m v ≫= for_each b l) in Hrun.
    apply bind_inv_Done in Hrun as (t1 & v1 & t2 & Hbody & Hrest & ->).
    destruct (lookup_lt_is_Some_2 v m) as [slot Hslot]; [lia |].
    assert (t1 = waypoint_events route_parameters m c /\ length v1 = length v)
      as [-> Hlen1].
    { unfold waypoint_events.
      destruct (usable_hint route_parameters m) as [hint |] eqn:Hu.
      - rewrite (GetPhantomNodes_body_hint _ _ _ _ _ Hu Hslot) in Hbody.
        injection Hbody as <- <-. unfold decode_events.
        rewrite (usable_hint_decoded _ _ _ Hu), length_insert. auto.
      - rewrite (GetPhantomNodes_body_search _ _ _ _ _ Hu Hc Hslot) in Hbody.
        injection Hbody as <- Hout.
        apply search_outcome_Done in Hout as [_ ->].
        rewrite length_insert. auto. }
    apply IH in Hrest; [| exact Hdrop' | lia].
    rewrite imap_cons, Hrest. simpl concat. rewrite Nat.add_0_r.
    f_equal. f_equal. apply imap_ext. intros i c' _. simpl.
    replace (m + S i) with (S m + i) by lia. reflexivity.
Qed.

(** X1.  When, for every waypoint that cannot reuse its hint, the search
    leaves a valid phantom node at the front of the slot once the first of
    several candidates is erased, resolution of the array [HandleRequest]
    creates ends well, and the assertion at the end of the loop body changes
    nothing of the result: the calls are those of the waypoints in input order,
    and slot [i] holds the decoded node where the hint is reused and what the
    search left where it is not. *)
Theorem GetPhantomNodes_resolves (route_parameters : RouteParameters) :
  (forall i c, coordinates route_parameters !! i = Some c ->
     usable_hint route_parameters i = None ->
     exists first,
       head (erase_first_if_many (IncrementalFindPhantomNodeForCoordinate c [] 1))
         = Some first /\
       is_valid first GetNumberOfNodes = true) ->
  GetPhantomNodes route_parameters (fresh_array route_parameters)
  = (concat (imap (waypoint_events route_parameters)
                  (coordinates route_parameters)),
     Done (imap (fun i c =>
                   match usable_hint route_parameters i with
                   | Some hint => [DecodeFromBase64 hint]
                   | None =>
                       erase_first_if_many
                         (IncrementalFindPhantomNodeForCoordinate c [] 1)
                   end)
                (coordinates route_parameters))).
Proof.
  intros Hfinds.
  destruct (GetPhantomNodes_returns route_parameters Hfinds) as (t & v & Hrun).
  rewrite Hrun. f_equal; [| f_equal].
  - unfold GetPhantomNodes, fresh_array in Hrun.
    apply (GetPhantomNodes_loop_trace route_parameters
             (coordinates route_parameters) 0) in Hrun.
    + exact Hrun.
    + reflexivity.
    + rewrite length_replicate. lia.
  - apply GetPhantomNodes_fresh in Hrun as (Hlen & Hslots & _).
    apply list_eq. intros i. rewrite list_lookup_imap.
    destruct (coordinates route_parameters !! i) as [c |] eqn:Hc.
    + destruct (Hslots i c Hc) as [Hv _]. rewrite Hv. simpl. unfold resolved.
      destruct (usable_hint route_parameters i); reflexivity.
    + apply lookup_ge_None. rewrite Hlen. apply lookup_ge_None. exact Hc.
Qed.

(** X2.  A resolution that ends well has made its calls waypoint by waypoint,
    in input order: for each waypoint the decoding of its hint when the
    checksum matches and the hint is present and not empty, and then, unless
    the decoded node is valid, one search for its coordinate, asked for one
    result.  Nothing else is called. *)
Theorem GetPhantomNodes_trace (route_parameters : RouteParameters)
    (t : list Event) (v : PhantomNodeArray) :
  GetPhantomNodes route_parameters (fresh_array route_parameters) = (t, Done v) ->
  t = concat (imap (waypoint_events route_parameters)
                   (coordinates route_parameters)).
Proof.
  unfold GetPhantomNodes, fresh_array. intros Hrun.
  apply (GetPhantomNodes_loop_trace route_parameters
           (coordinates route_parameters) 0) in Hrun.
  - exact Hrun.
  - reflexivity.
  - rewrite length_replicate. lia.
Qed.

(** X3.  When the checksum of the request differs from the facade's, no hint
    is decoded, whatever the hints are: every coordinate is searched, in input
    order, and each slot holds what its search left. *)
Theorem stale_checksum_ignores_hints (route_parameters : RouteParameters)
    (t : list Event) (v : PhantomNodeArray) :
  check_sum route_parameters <> GetCheckSum ->
  GetPhantomNodes route_parameters (fresh_array route_parameters) = (t, Done v) ->
  t = imap (fun i c => EvIncrementalFind i c 1) (coordinates route_parameters) /\
  v = map (fun c => erase_first_if_many
                      (IncrementalFindPhantomNodeForCoordinate c [] 1))
          (coordinates route_parameters).
Proof.
  intros Hstale Hrun.
  assert (forall i, decoded_hint route_parameters i = None) as Hdecoded.
  { intros i. unfold decoded_hint.
    rewrite (bool_decide_eq_false_2 _ Hstale). reflexivity. }
  assert (forall i, usable_hint route_parameters i = None) as Husable.
  { intros i. unfold usable_hint. rewrite Hdecoded. reflexivity. }
  split.
  - unfold GetPhantomNodes, fresh_array in Hrun.
    apply (GetPhantomNodes_loop_trace route_parameters
             (coordinates route_parameters) 0) in Hrun;
      [| reflexivity | rewrite length_replicate; lia].
    rewrite Hrun. clear Hrun.
    assert (forall cs m,
      concat (imap (fun i c => waypoint_events route_parameters (m + i) c) cs)
      = imap (fun i c => EvIncrementalFind (m + i) c 1) cs) as Hall.
    { induction cs as [| c cs IH]; intros m; [reflexivity |].
      rewrite !imap_cons. simpl concat. unfold waypoint_events at 1.
      unfold decode_events. rewrite Hdecoded, Husable. simpl.
      f_equal.
      rewrite (imap_ext _ (fun i c => waypoint_events route_parameters (S m + i) c))
        by (intros i c' _; simpl; f_equal; lia).
      rewrite IH. apply imap_ext. intros i c' _. simpl. f_equal. lia. }
    apply (Hall _ 0).
  - apply GetPhantomNodes_fresh in Hrun as (Hlen & Hslots & _).
    apply list_eq. intros i. rewrite list_lookup_fmap.
    destruct (coordinates route_parameters !! i) as [c |] eqn:Hc.
    + destruct (Hslots i c Hc) as [Hslot _]. unfold resolved in Hslot.
      rewrite Husable in Hslot. exact Hslot.
    + apply lookup_ge_None in Hc. apply lookup_ge_None. lia.
Qed.

Lemma GetPhantomNodes_body_needs_slot (route_parameters : RouteParameters)
    (ok : bool) (i : nat) (v v' : PhantomNodeArray) (t : list Event) :
  GetPhantomNodes_body route_parameters ok i v = (t, Done v') ->
  is_Some (v !! i).
Proof.
  destruct (v !! i) as [slot |] eqn:Hslot; [eauto |].
  unfold GetPhantomNodes_body, at_. rewrite Hslot. intros Hrun. exfalso.
  destruct (ok && bool_decide (i < length (hints route_parameters)));
    destruct (hints route_parameters !! i) as [hint |];
    destruct (coordinates route_parameters !! i);
    simpl in Hrun;
    repeat match type of Hrun with
           | context [if ?b then _ else _] => destruct b; simpl in Hrun
           end;
    discriminate Hrun.
Qed.

Lemma GetPhantomNodes_loop_needs_slots (route_parameters : RouteParameters)
    (n : nat) :
  forall (m : nat) (v v' : PhantomNodeArray) (t : list Event),
  m + n <= length (coordinates route_parameters) ->
  for_each (GetPhantomNodes_body route_parameters
              (bool_decide (check_sum route_parameters = GetCheckSum)))
           (seq m n) v = (t, Done v') ->
  m + n <= length v \/ n = 0.
Proof.
  induction n as [| n IH]; intros m v v' t Hcoords Hrun; [auto |]. left.
  change (seq m (S n)) with (m :: seq (S m) n) in Hrun.
  change (for_each ?b (m :: ?l) v) with (b m v ≫= for_each b l) in Hrun.
  apply bind_inv_Done in Hrun as (t1 & v1 & t2 & Hbody & Hrest & _).
  destruct (GetPhantomNodes_body_needs_slot _ _ _ _ _ _ Hbody) as [slot Hslot].
  destruct (lookup_lt_is_Some_2 (coordinates route_parameters) m) as [c Hc];
    [lia |].
  destruct (GetPhantomNodes_body_Done _ _ _ _ _ _ _ Hc Hslot Hbody) as (-> & _).
  assert (S m + n <= length (coordinates route_parameters)) as Hcoords' by lia.
  destruct (IH _ _ _ _ Hcoords' Hrest) as [Hlen | ->].
  - rewrite length_insert in Hlen. lia.
  - apply lookup_lt_Some in Hslot. lia.
Qed.

(** X4.  On any array, a resolution that ends well had a slot for every
    coordinate, returns as many slots as it was given, and leaves the slots
    beyond the coordinates as they were. *)
Theorem GetPhantomNodes_frame (route_parameters : RouteParameters)
    (v v' : PhantomNodeArray) (t : list Event) :
  GetPhantomNodes route_parameters v = (t, Done v') ->
  length (coordinates route_parameters) <= length v /\
  length v' = length v /\
  forall i, length (coordinates route_parameters) <= i -> v' !! i = v !! i.
Proof.
  unfold GetPhantomNodes. intros Hrun.
  destruct (GetPhantomNodes_loop_needs_slots route_parameters
              (length (coordinates route_parameters)) 0 v v' t
              (Nat.le_refl _) Hrun)
    as [Hslots | Hnone].
  - apply GetPhantomNodes_loop in Hrun as (Hlen & Hout & _); [| lia | lia].
    split; [lia |]. split; [exact Hlen |].
    intros i Hi. apply Hout. lia.
  - rewrite Hnone in *. injection Hrun as _ <-.
    split; [lia |]. split; reflexivity.
Qed.

(** ** SplitUnaccessibleLocations *)

Lemma fill_components_inv (scc : TarjanSCC) (n : nat) :
  forall (m : nat) (components components' : list (list NodeID)) (t : list Event),
  for_each (fun (i : nat) components =>
              let id := get_component_id scc i in
              component ← at_ components id;
              mret (<[id := component ++ [i]]> components))
           (seq m n) components = (t, Done components') ->
  forall i, m <= i < m + n -> get_component_id scc i < length components.
Proof.
  induction n as [| n IH]; intros m components components' t Hrun i Hi; [lia |].
  change (seq m (S n)) with (m :: seq (S m) n) in Hrun.
  change (for_each ?b (m :: ?l) components)
    with (b m components ≫= for_each b l) in Hrun.
  apply bind_inv_Done in Hrun as (t1 & components1 & t2 & Hbody & Hrest & _).
  cbv beta zeta in Hbody.
  apply bind_inv_Done in Hbody as (t3 & component & t4 & Hat & Hret & _).
  apply at_inv_Done in Hat as [Hat _]. injection Hret as _ <-.
  destruct (decide (i = m)) as [-> | Hne].
  - eapply lookup_lt_Some. exact Hat.
  - specialize (IH _ _ _ _ Hrest i ltac:(lia)).
    rewrite length_insert in IH. exact IH.
Qed.

Lemma SplitUnaccessibleLocations_general (number_of_locations : nat)
    (result_table : DistTableWrapper) (components0 components : list (list NodeID))
    (t : list Event) :
  let scc := scc_run (GetTable result_table) number_of_locations in
  SplitUnaccessibleLocations number_of_locations result_table components0
    = (t, Done components) ->
  (forall i, i < number_of_locations ->
     get_component_id scc i < length components0 + get_number_of_components scc) /\
  t = [EvTarjanRun number_of_locations] /\
  components
  = imap (fun c component => component ++ members scc 0 number_of_locations c)
         (components0 ++ replicate (get_number_of_components scc) []).
Proof.
  intros scc. unfold SplitUnaccessibleLocations. fold scc.
  rewrite bind_emit. cbv zeta.
  rewrite push_back_empty_loop, bind_mret, length_seq. intros Hrun.
  assert (forall i, i < number_of_locations ->
            get_component_id scc i
            < length components0 + get_number_of_components scc) as Hrange.
  { intros i Hi.
    destruct (for_each _ (seq 0 number_of_locations) _) as [t' [cs |]] eqn:Hfill;
      [| discriminate].
    pose proof (fill_components_inv _ _ _ _ _ _ Hfill i ltac:(lia)) as Hlt.
    rewrite length_app, length_replicate in Hlt. exact Hlt. }
  split; [exact Hrange |].
  rewrite fill_components_loop in Hrun.
  - simpl in Hrun. injection Hrun as <- <-. auto.
  - intros i Hi. rewrite length_app, length_replicate. apply Hrange. lia.
Qed.

(** X5.  Called with no components yet, [SplitUnaccessibleLocations] ends well
    exactly when the SCC run gives every location a component id below the
    number of components it reports; an id outside indexes past the end of
    the vector of components. *)
Theorem SplitUnaccessibleLocations_completes_iff (number_of_locations : nat)
    (result_table : DistTableWrapper) :
  (exists t components,
     SplitUnaccessibleLocations number_of_locations result_table []
       = (t, Done components))
  <->
  (forall i, i < number_of_locations ->
     get_component_id (scc_run (GetTable result_table) number_of_locations) i
     < get_number_of_components
         (scc_run (GetTable result_table) number_of_locations)).
Proof.
  split.
  - intros (t & components & Hrun).
    apply SplitUnaccessibleLocations_general in Hrun as (Hrange & _).
    exact Hrange.
  - intros Hrange. eexists _, _.
    apply SplitUnaccessibleLocations_spec. exact Hrange.
Qed.

Lemma filter_seq_ascending (P : nat -> Prop) `{forall i, Decision (P i)} (n : nat) :
  forall m a b x y,
  filter P (seq m n) !! a = Some x -> filter P (seq m n) !! b = Some y ->
  a < b -> x < y.
Proof.
  induction n as [| n IH]; intros m a b x y Ha Hb Hab; [discriminate |].
  change (seq m (S n)) with (m :: seq (S m) n) in Ha, Hb.
  rewrite filter_cons in Ha, Hb. destruct (decide (P m)) as [_ | _].
  - destruct b as [| b]; [lia |]. simpl in Hb.
    destruct a as [| a].
    + injection Ha as <-.
      apply list_elem_of_lookup_2, list_elem_of_filter in Hb as [_ Hy].
      apply elem_of_seq in Hy. lia.
    + simpl in Ha. apply (IH (S m) a b); [assumption .. | lia].
  - apply (IH (S m) a b); assumption.
Qed.

(** X6.  Called with no components yet, [SplitUnaccessibleLocations] returns
    one component per component of the SCC run, empty ones included; component
    [k] holds exactly the locations the run gave id [k], in ascending order. *)
Theorem SplitUnaccessibleLocations_groups_by_id (number_of_locations : nat)
    (result_table : DistTableWrapper) (components : list (list NodeID))
    (t : list Event) :
  SplitUnaccessibleLocations number_of_locations result_table []
    = (t, Done components) ->
  let scc := scc_run (GetTable result_table) number_of_locations in
  length components = get_number_of_components scc /\
  forall k component, components !! k = Some component ->
    (forall i, i ∈ component <->
               i < number_of_locations /\ get_component_id scc i = k) /\
    (forall a b x y,
       component !! a = Some x -> component !! b = Some y -> a < b -> x < y).
Proof.
  intros Hrun scc.
  apply SplitUnaccessibleLocations_general in Hrun as (_ & _ & ->). fold scc.
  simpl app. split.
  - rewrite length_imap, length_replicate. reflexivity.
  - intros k component Hk. rewrite list_lookup_imap in Hk.
    destruct (replicate _ _ !! k) as [old |] eqn:Hold; [| discriminate].
    apply lookup_replicate in Hold as [-> _]. injection Hk as <-. simpl.
    split.
    + intros i. apply elem_of_members.
    + intros a b x y. unfold members. apply filter_seq_ascending.
Qed.

(** X7.  On a vector that already holds components,
    [SplitUnaccessibleLocations] appends one empty component per component of
    the SCC run and then indexes the whole vector by component id: each
    location is added to the entry at the position of its id counted from the
    start, so entries that were there before receive the locations of the
    first ids, behind what they held. *)
Theorem SplitUnaccessibleLocations_indexes_from_start (number_of_locations : nat)
    (result_table : DistTableWrapper) (components0 components : list (list NodeID))
    (t : list Event) :
  SplitUnaccessibleLocations number_of_locations result_table components0
    = (t, Done components) ->
  let scc := scc_run (GetTable result_table) number_of_locations in
  let with_id k :=
    filter (fun i => get_component_id scc i = k) (seq 0 number_of_locations) in
  length components = length components0 + get_number_of_components scc /\
  (forall k old, components0 !! k = Some old ->
     components !! k = Some (old ++ with_id k)) /\
  (forall k, length components0 <= k < length components ->
     components !! k = Some (with_id k)).
Proof.
  intros Hrun scc with_id.
  apply SplitUnaccessibleLocations_general in Hrun as (_ & _ & ->). fold scc.
  assert (length
            (imap (fun c component =>
                     component ++ members scc 0 number_of_locations c)
                  (components0 ++ replicate (get_number_of_components scc) []))
          = length components0 + get_number_of_components scc) as Hlen
    by (rewrite length_imap, length_app, length_replicate; reflexivity).
  split; [exact Hlen |]. split.
  - intros k old Hold. rewrite list_lookup_imap.
    rewrite (lookup_app_l_Some _ _ _ _ Hold). reflexivity.
  - intros k Hk. rewrite Hlen in Hk. rewrite list_lookup_imap.
    rewrite lookup_app_r by lia. rewrite lookup_replicate_2 by lia. reflexivity.
Qed.

(** ** ComputeRoute *)

Lemma trip_phantoms_candidates (phantom_node_vector : PhantomNodeArray)
    (trip : list NodeID) (ps : list PhantomNode) :
  trip_phantoms phantom_node_vector trip ps ->
  forall n, n ∈ trip -> is_Some (first_candidate phantom_node_vector n).
Proof.
  intros Hps n Hn. apply list_elem_of_lookup_1 in Hn as [i Hi].
  destruct (Forall2_lookup_l _ _ _ _ _ Hps Hi) as (p & _ & Hp). eauto.
Qed.

(** X8.  [ComputeRoute] for one trip ends well exactly when the trip is not
    empty and every waypoint of it has a first candidate in the array; an
    empty trip steps before the start of the vector, a waypoint without a
    candidate indexes past an end. *)
Theorem ComputeRoute_completes_iff (phantom_node_vector : PhantomNodeArray)
    (route_parameters : RouteParameters) (trip : list NodeID)
    (min_route : InternalRouteResult) :
  (exists t min_route',
     ComputeRoute phantom_node_vector route_parameters trip min_route
       = (t, Done min_route'))
  <->
  (trip <> [] /\
   forall n, n ∈ trip -> is_Some (first_candidate phantom_node_vector n)).
Proof.
  split.
  - intros (t & r' & Hrun). apply ComputeRoute_inv in Hrun as [Hne [ps Hps]].
    split; [exact Hne |]. eapply trip_phantoms_candidates. exact Hps.
  - intros [Hne Hall]. destruct (trip_phantoms_exists _ _ Hall) as [ps Hps].
    eexists _, _. apply ComputeRoute_spec; eassumption.
Qed.

Lemma tour_legs_ends (p q : PhantomNode) :
  forall (ps : list PhantomNode) (first : PhantomNode),
  last (first :: ps) = Some q ->
  map source_phantom (zip_with mkPhantomNodes (first :: ps) ps
                      ++ [mkPhantomNodes q p]) = first :: ps /\
  map target_phantom (zip_with mkPhantomNodes (first :: ps) ps
                      ++ [mkPhantomNodes q p]) = ps ++ [p].
Proof.
  induction ps as [| x ps IH]; intros first Hlast.
  - injection Hlast as <-. auto.
  - change (last (first :: x :: ps)) with (last (x :: ps)) in Hlast.
    destruct (IH x Hlast) as [Hsources Htargets].
    change (zip_with mkPhantomNodes (first :: x :: ps) (x :: ps))
      with (mkPhantomNodes first x :: zip_with mkPhantomNodes (x :: ps) ps).
    simpl. simpl in Hsources, Htargets. rewrite Hsources, Htargets. auto.
Qed.

Lemma tour_legs_round_trip (ps : list PhantomNode) :
  ps <> [] ->
  map source_phantom (tour_legs ps) = ps /\
  map target_phantom (tour_legs ps) = tail ps ++ take 1 ps.
Proof.
  intros Hne. destruct ps as [| p ps]; [congruence |].
  unfold tour_legs, consecutive_legs, closing_leg.
  destruct (last (p :: ps)) as [q |] eqn:Hlast;
    [| apply last_None in Hlast; discriminate].
  change (tail (p :: ps)) with ps. change (head (p :: ps)) with (Some p).
  change (take 1 (p :: ps)) with [p].
  apply tour_legs_ends. exact Hlast.
Qed.

(** X9.  The legs [ComputeRoute] hands to the shortest-path search for a
    route that had no legs yet form a round trip over the trip: one leg leaves
    from the candidate of each waypoint, in the order of the trip, and leads
    to the candidate of the next waypoint, the last leg leading back to the
    first.  A trip of one waypoint gives one leg from its candidate to itself.
    The route returned is what that one query made of the route with the legs
    appended. *)
Theorem ComputeRoute_round_trip (phantom_node_vector : PhantomNodeArray)
    (route_parameters : RouteParameters) (trip : list NodeID)
    (min_route min_route' : InternalRouteResult) (t : list Event) :
  segment_end_coordinates min_route = [] ->
  ComputeRoute phantom_node_vector route_parameters trip min_route
    = (t, Done min_route') ->
  exists ps legs,
    trip_phantoms phantom_node_vector trip ps /\
    t = [EvShortestPath legs (uturns route_parameters)] /\
    min_route'
    = shortest_path legs (uturns route_parameters) (add_legs min_route legs) /\
    map source_phantom legs = ps /\
    map target_phantom legs = tail ps ++ take 1 ps.
Proof.
  intros Hfresh Hrun.
  destruct (ComputeRoute_inv _ _ _ _ _ _ Hrun) as [Hne [ps Hps]].
  rewrite (ComputeRoute_spec _ route_parameters _ _ min_route Hps Hne) in Hrun.
  rewrite Hfresh in Hrun. simpl app in Hrun. injection Hrun as <- <-.
  assert (ps <> []) as Hpne.
  { intros ->. apply Forall2_nil_inv_r in Hps. contradiction. }
  destruct (tour_legs_round_trip ps Hpne) as [Hsources Htargets].
  exists ps, (tour_legs ps). auto 6.
Qed.

(** X10.  The overload of [ComputeRoute] for all trips keeps the routes that
    were there and appends one route per trip, in the order of the trips.  The
    route of a trip is not the one the overload for one trip returns on a fresh
    route: the search is run once more on that route, with the legs the first
    search left in it, and the second query follows the calls of the first in
    the trace. *)
Theorem ComputeRoutes_appends (phantom_node_vector : PhantomNodeArray)
    (route_parameters : RouteParameters) (trips : list (list NodeID)) :
  forall (route routes : list InternalRouteResult) (t : list Event),
  ComputeRoutes phantom_node_vector route_parameters trips route
    = (t, Done routes) ->
  exists firsts,
    Forall2 (fun trip first =>
               (ComputeRoute phantom_node_vector route_parameters trip
                             InternalRouteResult_default).2 = Done first)
            trips firsts /\
    routes
    = route ++ map (fun first =>
                      shortest_path (segment_end_coordinates first)
                                    (uturns route_parameters) first) firsts /\
    t = concat (zip_with
                  (fun trip first =>
                     (ComputeRoute phantom_node_vector route_parameters trip
                                   InternalRouteResult_default).1
                     ++ [EvShortestPath (segment_end_coordinates first)
                                        (uturns route_parameters)])
                  trips firsts).
Proof.
  unfold ComputeRoutes. set (body := fun curr_trip route => _).
  induction trips as [| trip trips IH]; intros route routes t Hrun.
  - injection Hrun as <- <-. exists []. split; [apply Forall2_nil_2 |].
    rewrite app_nil_r. auto.
  - change (for_each body (trip :: trips) route)
      with (body trip route ≫= for_each body trips) in Hrun.
    apply bind_inv_Done in Hrun as (t1 & route1 & t2 & Hbody & Hrest & ->).
    unfold body in Hbody. cbv beta zeta in Hbody.
    apply bind_inv_Done in Hbody as (t3 & first & t4 & Hone & Hagain & ->).
    injection Hagain as <- <-.
    destruct (IH _ _ _ Hrest) as (firsts & Hfirsts & -> & ->).
    exists (first :: firsts). split; [| split].
    + apply Forall2_cons_2; [rewrite Hone; reflexivity | exact Hfirsts].
    + simpl. rewrite <- app_assoc. reflexivity.
    + simpl. rewrite Hone. reflexivity.
Qed.

(** ** HandleRequest *)

Lemma in_phase_order_same (k : nat) (t : list Event) :
  Forall (fun e => phase e = k) t -> in_phase_order t.
Proof.
  induction 1 as [| e t He Ht IH]; [exact I |].
  split; [| exact IH].
  eapply Forall_impl; [exact Ht |]. intros later Hlater. simpl in *. lia.
Qed.

Lemma in_phase_order_app (k : nat) (t1 t2 : list Event) :
  Forall (fun e => phase e <= k) t1 -> Forall (fun e => k <= phase e) t2 ->
  in_phase_order t1 -> in_phase_order t2 -> in_phase_order (t1 ++ t2).
Proof.
  intros Hlow Hhigh Ht1 Ht2.
  induction Hlow as [| e t1 He Hlow IH]; [exact Ht2 |].
  destruct Ht1 as [Hlater Ht1]. split; [| apply IH; exact Ht1].
  apply Forall_app. split; [exact Hlater |].
  eapply Forall_impl; [exact Hhigh |]. intros later Hk. simpl in *. lia.
Qed.

Lemma phase_bounds (k lo hi : nat) (t : list Event) :
  lo <= k <= hi -> Forall (fun e => phase e = k) t ->
  Forall (fun e => phase e <= hi) t /\ Forall (fun e => lo <= phase e) t.
Proof.
  intros Hk Ht.
  split; (eapply Forall_impl; [exact Ht |]); intros e He; simpl in *; lia.
Qed.

(** X11.  In a response with status 200 the heuristic calls in the trace are
    exactly one per component with at least two locations, in the order of the
    components, each on the whole component, and all with the same heuristic:
    the one the request's [tsp_algo] and number of coordinates select.
    Components of one location are passed over. *)
Theorem one_heuristic_call_per_tour (route_parameters : RouteParameters)
    (json_result json_result' : json.Object) (t : list Event) :
  HandleRequest route_parameters json_result = (t, Done (200%Z, json_result')) ->
  exists t_resolve t_split v components,
    GetPhantomNodes route_parameters (fresh_array route_parameters)
      = (t_resolve, Done v) /\
    HandleRequest_components (length v)
      (mkDistTableWrapper (distance_table v) (length v)) []
      = (t_split, Done components) /\
    tsp_calls t
    = map (fun component => (chosen_heuristic route_parameters, component))
          (filter (fun component => 1 < length component) components).
Proof.
  intros Hrun.
  apply handled_200 in Hrun
    as (t_r & t_c & t_s & v & components & Hresolve & Hne & Hsplit & Hstitch
        & -> & _).
  exists t_r, t_c, v, components.
  split; [exact Hresolve |]. split; [exact Hsplit |].
  eapply tsp_calls_of_request; eassumption.
Qed.

(** X12.  The calls of a request that is answered come in the order of the
    stages: resolution, distance table, SCC run, heuristics, shortest-path
    queries, the log line with the run time, rendering; no call of an earlier
    stage follows one of a later stage.  Unless the request made no call at
    all, it asked for the distance table exactly once, for the array the
    resolver returned, after the resolver's calls and before all others. *)
Theorem calls_follow_the_stages (route_parameters : RouteParameters)
    (json_result json_result' : json.Object) (t : list Event) (status : Z) :
  HandleRequest route_parameters json_result = (t, Done (status, json_result')) ->
  in_phase_order t /\
  (t = [] \/
   exists t_resolve v rest,
     GetPhantomNodes route_parameters (fresh_array route_parameters)
       = (t_resolve, Done v) /\
     t = t_resolve ++ EvDistanceTable v :: rest /\
     Forall (fun e => phase e = 0) t_resolve /\
     Forall (fun e => 1 < phase e) rest).
Proof.
  intros Hrun. apply HandleRequest_handled in Hrun.
  destruct Hrun as
    [Hcheck | t_r v Hcheck Hresolve Hempty
     | t_r t_c t_s v components routes result_table Hcheck Hresolve Hne
         Hsplit Hstitch Hfit].
  - split; [exact I | left; reflexivity].
  - pose proof (GetPhantomNodes_phase _ _ _ _ Hresolve) as Hr.
    split.
    + apply (in_phase_order_app 0).
      * eapply Forall_impl; [exact Hr |]. intros e He. simpl in *. lia.
      * repeat constructor.
      * exact (in_phase_order_same _ _ Hr).
      * repeat constructor.
    + right. exists t_r, v, []. auto.
  - pose proof (GetPhantomNodes_phase _ _ _ _ Hresolve) as Hr.
    pose proof (HandleRequest_components_phase _ _ _ _ _ Hsplit) as Hc.
    pose proof (tsp_events_phase route_parameters components) as Hh.
    pose proof (ComputeRoutes_phase _ _ _ _ _ _ Hstitch) as Hs.
    pose proof (descriptor_runs_phase routes) as Hd.
    assert (Forall (fun e => phase e = 1) [EvDistanceTable v]) as Ht
      by (repeat constructor).
    assert (Forall (fun e => phase e = 5) [EvLogRuntime TIMER_MSEC_tsp]) as Hl
      by (repeat constructor).
    destruct (phase_bounds 0 0 0 _ ltac:(lia) Hr) as [Hr_hi _].
    destruct (phase_bounds 1 1 1 _ ltac:(lia) Ht) as [Ht_hi Ht_lo].
    destruct (phase_bounds 2 2 2 _ ltac:(lia) Hc) as [Hc_hi Hc_lo].
    destruct (phase_bounds 3 3 3 _ ltac:(lia) Hh) as [Hh_hi Hh_lo].
    destruct (phase_bounds 4 4 4 _ ltac:(lia) Hs) as [Hs_hi Hs_lo].
    destruct (phase_bounds 5 5 5 _ ltac:(lia) Hl) as [Hl_hi Hl_lo].
    destruct (phase_bounds 6 6 6 _ ltac:(lia) Hd) as [_ Hd_lo].
    assert (forall k k' (l : list Event),
              k <= k' -> Forall (fun e => k' <= phase e) l ->
              Forall (fun e => k <= phase e) l) as Hweaken.
    { intros k k' l Hk Hl'. eapply Forall_impl; [exact Hl' |].
      intros e He. simpl in *. lia. }
    split.
    + apply (in_phase_order_app 0);
        [exact Hr_hi | | exact (in_phase_order_same _ _ Hr) |].
      { repeat (apply Forall_app; split);
          eapply (Hweaken 0); try eassumption; lia. }
      apply (in_phase_order_app 1);
        [exact Ht_hi | | exact (in_phase_order_same _ _ Ht) |].
      { repeat (apply Forall_app; split);
          eapply (Hweaken 1); try eassumption; lia. }
      apply (in_phase_order_app 2);
        [exact Hc_hi | | exact (in_phase_order_same _ _ Hc) |].
      { repeat (apply Forall_app; split);
          eapply (Hweaken 2); try eassumption; lia. }
      apply (in_phase_order_app 3);
        [exact Hh_hi | | exact (in_phase_order_same _ _ Hh) |].
      { repeat (apply Forall_app; split);
          eapply (Hweaken 3); try eassumption; lia. }
      apply (in_phase_order_app 4);
        [exact Hs_hi | | exact (in_phase_order_same _ _ Hs) |].
      { repeat (apply Forall_app; split);
          eapply (Hweaken 4); try eassumption; lia. }
      apply (in_phase_order_app 5);
        [exact Hl_hi | exact (Hweaken 5 6 _ ltac:(lia) Hd_lo)
         | exact (in_phase_order_same _ _ Hl) |].
      exact (in_phase_order_same _ _ Hd).
    + right. exists t_r, v. eexists. split; [exact Hresolve |].
      split; [reflexivity |]. split; [exact Hr |].
      repeat (apply Forall_app; split);
        (eapply Forall_impl; [eassumption |]); intros e He; simpl in *; lia.
Qed.

Lemma sums_in_range_prefixes (routes : list InternalRouteResult) :
  forall dist,
  sums_in_range dist routes <->
  (forall k, 1 <= k <= length routes ->
     in_int_range (dist + total_length (take k routes)) = true).
Proof.
  induction routes as [| r routes IH]; intros dist.
  - split; [| intros _; exact I]. intros _ k Hk. simpl in Hk. lia.
  - change (sums_in_range dist (r :: routes))
      with (in_int_range (dist + shortest_path_length r) = true /\
            sums_in_range (dist + shortest_path_length r) routes).
    rewrite IH. split.
    + intros [Hfirst Hrest] k Hk. destruct k as [| k]; [lia |].
      change (total_length (take (S k) (r :: routes)))
        with (shortest_path_length r + total_length (take k routes))%Z.
      destruct k as [| k].
      * rewrite take_0. change (total_length []) with 0%Z.
        rewrite Z.add_0_r. exact Hfirst.
      * rewrite Z.add_assoc. apply Hrest. simpl in Hk. lia.
    + intros Hall. split.
      * specialize (Hall 1 ltac:(simpl; lia)).
        change (total_length (take 1 (r :: routes)))
          with (shortest_path_length r + total_length (take 0 routes))%Z in Hall.
        rewrite take_0 in Hall. change (total_length []) with 0%Z in Hall.
        rewrite Z.add_0_r in Hall. exact Hall.
      * intros k Hk. specialize (Hall (S k) ltac:(simpl; lia)).
        change (total_length (take (S k) (r :: routes)))
          with (shortest_path_length r + total_length (take k routes))%Z in Hall.
        rewrite Z.add_assoc in Hall. exact Hall.
Qed.

(** X13.  The loop that sums the lengths of the routes and renders them ends
    well exactly when the sum of every non-empty prefix of the lengths is an
    [int]; the running sum is an [int] and its overflow is undefined.  When the
    loop ends well it has called the descriptor once per route, in order, on
    the object the previous call returned, and holds the sum of all lengths. *)
Theorem distance_sum_completes_iff (route_parameters : RouteParameters)
    (routes : list InternalRouteResult) (json_result : json.Object) :
  ((exists t acc,
      for_each (HandleRequest_aggregate route_parameters) routes
               (0%Z, json_result) = (t, Done acc))
   <->
   (forall k, 1 <= k <= length routes ->
      in_int_range (total_length (take k routes)) = true))
  /\
  (forall t acc,
     for_each (HandleRequest_aggregate route_parameters) routes
              (0%Z, json_result) = (t, Done acc) ->
     t = map EvDescriptorRun routes /\
     acc = (total_length routes, rendered route_parameters routes json_result)).
Proof.
  split; [split |].
  - intros (t & acc & Hrun) k Hk. apply aggregate_loop_inv in Hrun.
    exact (proj1 (sums_in_range_prefixes routes 0) Hrun k Hk).
  - intros Hall. eexists _, _. apply aggregate_loop_returns.
    apply sums_in_range_prefixes. exact Hall.
  - intros t acc Hrun. pose proof (aggregate_loop_inv _ _ _ _ _ _ Hrun) as Hfit.
    rewrite (aggregate_loop_returns _ _ _ _ Hfit) in Hrun.
    injection Hrun as <- <-. auto.
Qed.

Lemma rendered_last_key (route_parameters : RouteParameters) (key : string)
    (value_of : InternalRouteResult -> json.Value) :
  (forall r o, descriptor_Run route_parameters r o !! key = Some (value_of r)) ->
  forall routes o r, last routes = Some r ->
    rendered route_parameters routes o !! key = Some (value_of r).
Proof.
  intros Hkey routes o r Hlast. apply last_Some in Hlast as [routes' ->].
  unfold rendered. rewrite foldl_app. simpl. apply Hkey.
Qed.

(** X14.  All routes of a response are rendered into the same object, one
    after the other.  So for an entry that the descriptor sets for every route
    to a value of that route, a response with status 200 and at least one
    route carries the value of the last component's route; what the descriptor
    set for the routes of the components before it is gone. *)
Theorem last_route_wins (route_parameters : RouteParameters)
    (json_result json_result' : json.Object) (t : list Event) (key : string)
    (value_of : InternalRouteResult -> json.Value) :
  key <> "distance"%string ->
  (forall r o, descriptor_Run route_parameters r o !! key = Some (value_of r)) ->
  HandleRequest route_parameters json_result = (t, Done (200%Z, json_result')) ->
  exists t_resolve t_split v components,
    GetPhantomNodes route_parameters (fresh_array route_parameters)
      = (t_resolve, Done v) /\
    HandleRequest_components (length v)
      (mkDistTableWrapper (distance_table v) (length v)) []
      = (t_split, Done components) /\
    forall r,
      last (round_trip_routes route_parameters v
              (mkDistTableWrapper (distance_table v) (length v)) components)
      = Some r ->
      json_result' !! key = Some (value_of r).
Proof.
  intros Hdistance Hkey Hrun.
  apply handled_200 in Hrun
    as (t_r & t_c & t_s & v & components & Hresolve & Hne & Hsplit & Hstitch
        & _ & ->).
  exists t_r, t_c, v, components.
  split; [exact Hresolve |]. split; [exact Hsplit |].
  intros r Hlast. unfold SetDistanceOutput.
  rewrite lookup_insert_ne by congruence.
  apply rendered_last_key; assumption.
Qed.

Lemma rendered_preserves_key (route_parameters : RouteParameters)
    (key : string) (routes : list InternalRouteResult) :
  (forall r o, descriptor_Run route_parameters r o !! key = o !! key) ->
  forall o, rendered route_parameters routes o !! key = o !! key.
Proof.
  intros Hkey. unfold rendered.
  induction routes as [| r routes IH]; intros o; [reflexivity |].
  simpl. rewrite IH. apply Hkey.
Qed.

(** X15.  Of its own, [HandleRequest] writes two entries of a response with
    status 200: "runtime", before the routes are rendered, and "distance",
    after.  An entry other than "distance" that the descriptor leaves as it
    finds it is therefore, under "runtime", the run time converted to [float]
    (the log line carries the run time as it was read), and under any other
    key what the object held when it came in. *)
Theorem handler_writes_runtime_and_distance (route_parameters : RouteParameters)
    (json_result json_result' : json.Object) (t : list Event) (key : string) :
  key <> "distance"%string ->
  (forall r o, descriptor_Run route_parameters r o !! key = o !! key) ->
  HandleRequest route_parameters json_result = (t, Done (200%Z, json_result')) ->
  json_result' !! key
  = if decide (key = "runtime"%string)
    then Some (json.Number (to_float TIMER_MSEC_tsp))
    else json_result !! key.
Proof.
  intros Hdistance Hkey Hrun.
  apply handled_200 in Hrun
    as (t_r & t_c & t_s & v & components & _ & _ & _ & _ & _ & ->).
  unfold SetDistanceOutput, SetRuntimeOutput.
  rewrite lookup_insert_ne by congruence.
  rewrite rendered_preserves_key by exact Hkey.
  destruct (decide (key = "runtime"%string)) as [-> | Hother].
  - apply lookup_insert_eq.
  - apply lookup_insert_ne. congruence.
Qed.

(** ** SetLocPermutationOutput *)

Lemma loc_permutation_numbers_inj (p q : list nat) :
  map (fun n => json.Number (inject_Z (Z.of_nat n))) p
  = map (fun n => json.Number (inject_Z (Z.of_nat n))) q ->
  p = q.
Proof.
  revert q. induction p as [| n p IH]; intros [| m q] Heq; try discriminate.
  - reflexivity.
  - simpl in Heq. injection Heq as Hn Hrest.
    apply Nat2Z.inj in Hn. subst m. rewrite (IH _ Hrest). reflexivity.
Qed.

(** X16.  [SetLocPermutationOutput] loses nothing of the permutation: two
    objects it has written are equal only if the permutations were.  It
    touches no entry but "loc_permutation", and a second call replaces what
    the first one wrote. *)
Theorem SetLocPermutationOutput_lossless :
  (forall loc_permutation loc_permutation' json_result json_result',
     SetLocPermutationOutput loc_permutation json_result
     = SetLocPermutationOutput loc_permutation' json_result' ->
     loc_permutation = loc_permutation') /\
  (forall loc_permutation json_result key,
     key <> "loc_permutation"%string ->
     SetLocPermutationOutput loc_permutation json_result !! key
     = json_result !! key) /\
  (forall loc_permutation loc_permutation' json_result,
     SetLocPermutationOutput loc_permutation
       (SetLocPermutationOutput loc_permutation' json_result)
     = SetLocPermutationOutput loc_permutation json_result).
Proof.
  unfold SetLocPermutationOutput. simpl app. split; [| split].
  - intros p q j j' Heq.
    apply (f_equal (fun o => o !! "loc_permutation"%string)) in Heq.
    rewrite !lookup_insert_eq in Heq. injection Heq as Heq.
    apply loc_permutation_numbers_inj. exact Heq.
  - intros p j key Hkey. apply lookup_insert_ne. congruence.
  - intros p q j. apply insert_insert_eq.
Qed.

End RoundTrip.

(** * The claims of the specification on the small network *)

Import Islands.

(** C1, at a request with one tour.  Two waypoints on one island give one
    component and one tour, and the trace holds two shortest-path queries over
    the same two legs: the one [ComputeRoute] makes and the one the loop of the
    other overload repeats. *)
Theorem one_tour_is_queried_twice :
  let legs := [mkPhantomNodes 1 5; mkPhantomNodes 5 1] in
  tours_of one_island 2 table_one_island [[0; 1]] = [[0; 1]] /\
  shortest_path_queries (HandleRequest one_island ∅).1 = [legs; legs] /\
  exists json_result, (HandleRequest one_island ∅).2 = Done (200%Z, json_result).
Proof.
  cbv zeta. split; [reflexivity |]. split; [vm_compute; reflexivity |].
  eexists. vm_compute. reflexivity.
Qed.

Lemma components_partition_witness :
  exists t components,
    HandleRequest_components 3 table_two_islands [] = (t, Done components) /\
    strict_partition 3 components.
Proof.
  apply (components_partition 3 table_two_islands).
  - vm_compute. discriminate.
  - reflexivity.
  - intros i Hi. destruct i as [| [| [| i]]]; vm_compute; lia.
  - intros c Hc. destruct c as [| [| c]].
    + exists 0. vm_compute. split; [lia | reflexivity].
    + exists 1. vm_compute. split; [lia | reflexivity].
    + vm_compute in Hc. lia.
Defined.

Lemma fast_path_iff_no_sentinel_witness :
  HandleRequest_components 2 table_one_island [] = ([], Done [[0; 1]]) /\
  HandleRequest_components 3 table_two_islands []
  = SplitUnaccessibleLocations 3 table_two_islands [].
Proof.
  split.
  - destruct (fast_path_iff_no_sentinel 2 table_one_island) as [Hfast _].
    + discriminate.
    + repeat constructor; vm_compute; discriminate.
    + apply Hfast. intros Hin. vm_compute in Hin.
      repeat (apply elem_of_cons in Hin as [Hin | Hin]; [discriminate |]).
      apply elem_of_nil in Hin. exact Hin.
  - destruct (fast_path_iff_no_sentinel 3 table_two_islands) as [_ Hgeneral].
    + discriminate.
    + repeat constructor; vm_compute; discriminate.
    + apply Hgeneral. apply elem_of_cons. right. apply elem_of_cons. left.
      reflexivity.
Defined.

(** C6, as stated, fails: the search of [generous_facade] returns three
    candidates for each of two valid coordinates; resolution ends well and both
    waypoints retain two phantom nodes. *)
Lemma GetPhantomNodes_retains_two :
  check_all_coordinates (coordinates one_island) = true /\
  length (IncrementalFindPhantomNodeForCoordinate
            (DataFacadeT := generous_facade) (1, 0)%Z [] 1) = 3 /\
  GetPhantomNodes (facade := generous_facade) one_island (fresh_array one_island)
  = ([EvIncrementalFind 0 (1, 0)%Z 1; EvIncrementalFind 1 (5, 0)%Z 1],
     Done [[2; 3]; [6; 7]]).
Proof. vm_compute. auto. Qed.

Lemma GetPhantomNodes_retains_witness :
  length [[3]; [12]; [5]] = length (coordinates two_islands) /\
  forall i c, coordinates two_islands !! i = Some c ->
    exists slot, [[3]; [12]; [5]] !! i = Some slot /\ 1 <= length slot /\
      match usable_hint two_islands i with
      | Some hint => slot = [DecodeFromBase64 hint]
      | None =>
          let found := IncrementalFindPhantomNodeForCoordinate c [] 1 in
          slot = erase_first_if_many found /\
          length slot = Nat.max 1 (length found - 1) /\
          (length slot = 1 <-> 1 <= length found <= 2)
      end.
Proof.
  apply (GetPhantomNodes_retains two_islands
           [EvDecodeFromBase64 "abc"; EvIncrementalFind 1 (12, 0)%Z 1;
            EvIncrementalFind 2 (5, 0)%Z 1]).
  vm_compute. reflexivity.
Defined.

Lemma hint_reused_iff_usable_witness :
  [[3]; [12]; [5]] !! 0 = Some [DecodeFromBase64 "abc"] /\
  [[3]; [12]; [5]] !! 1
  = Some (erase_first_if_many
            (IncrementalFindPhantomNodeForCoordinate (12, 0)%Z [] 1)).
Proof.
  pose proof (hint_reused_iff_usable two_islands
                [EvDecodeFromBase64 "abc"; EvIncrementalFind 1 (12, 0)%Z 1;
                 EvIncrementalFind 2 (5, 0)%Z 1]
                [[3]; [12]; [5]]) as Hclaim.
  split.
  - destruct (Hclaim ltac:(vm_compute; reflexivity) 0 (1, 0)%Z eq_refl)
      as [(hint & (_ & Hhint & _) & Hslot & _) | (Hnone & _)].
    + injection Hhint as <-. exact Hslot.
    + exfalso. apply (Hnone "abc"%string).
      repeat split; try reflexivity. discriminate.
  - destruct (Hclaim ltac:(vm_compute; reflexivity) 1 (12, 0)%Z eq_refl)
      as [(hint & (_ & Hhint & _) & _) | (_ & _ & Hslot)].
    + discriminate.
    + exact Hslot.
Defined.

Lemma ComputeRoute_legs_witness :
  exists legs,
    ComputeRoute [[3]; [12]; [5]] two_islands [0; 2] InternalRouteResult_default
    = ([EvShortestPath legs false],
       Done (shortest_path legs false (add_legs InternalRouteResult_default legs)))
    /\ legs = [mkPhantomNodes 3 5; mkPhantomNodes 5 3].
Proof.
  destruct (ComputeRoute_legs [[3]; [12]; [5]] two_islands [0; 2]
              InternalRouteResult_default)
    as (legs & Hrun & Hlen & Hnext & Hlast).
  - simpl. lia.
  - intros n Hn. apply elem_of_cons in Hn as [-> | Hn]; [vm_compute; eauto |].
    apply list_elem_of_singleton in Hn as ->. vm_compute. eauto.
  - exists legs. split; [exact Hrun |].
    destruct (Hnext 0 0 2) as (a & b & Ha & Hb & H0);
      [simpl; lia | reflexivity | reflexivity |].
    destruct (Hlast 2 0) as (a' & b' & Ha' & Hb' & H1);
      [reflexivity | reflexivity |].
    injection Ha as <-. injection Hb as <-.
    injection Ha' as <-. injection Hb' as <-.
    destruct legs as [| l0 [| l1 [| l2 legs]]]; try discriminate.
    simpl in H0, H1. injection H0 as ->. injection H1 as ->. reflexivity.
Defined.

Lemma HandleRequest_two_islands :
  HandleRequest two_islands ∅
  = ((HandleRequest two_islands ∅).1, Done (200%Z, answer_two_islands)).
Proof. vm_compute. reflexivity. Qed.


Lemma distance_is_sum_of_component_costs_witness :
  exists t_split components,
    HandleRequest_components 3 table_two_islands [] = (t_split, Done components) /\
    answer_two_islands !! "distance"%string
    = Some (json.Number
              (inject_Z (sum_of_costs two_islands [[3]; [12]; [5]]
                                      table_two_islands components))).
Proof.
  destruct (distance_is_sum_of_component_costs two_islands ∅ answer_two_islands
              (HandleRequest two_islands ∅).1 HandleRequest_two_islands)
    as (t_r & t_c & v & components & Hresolve & Hsplit & Hdist & _).
  vm_compute in Hresolve. injection Hresolve as <- <-.
  exists t_c, components. split; [exact Hsplit | exact Hdist].
Defined.

Lemma loc_permutation_never_set_witness :
  answer_two_islands !! "loc_permutation"%string = None.
Proof.
  apply (loc_permutation_never_set two_islands ∅ answer_two_islands
           (HandleRequest two_islands ∅).1 200%Z HandleRequest_two_islands).
  - reflexivity.
  - intros r j Hj. simpl. rewrite lookup_insert_ne by discriminate. exact Hj.
Defined.

Lemma collaborators_behave_apart : collaborators_behave apart [[1]; [12]].
Proof.
  split; [| split].
  - intros i Hi. simpl in Hi. destruct i as [| [| i]]; vm_compute; lia.
  - intros component _. symmetry. apply Permutation_rev.
  - intros t components Hsplit. vm_compute in Hsplit.
    injection Hsplit as <- <-. exact I.
Qed.

Lemma HandleRequest_status_witness :
  HandleRequest off_the_map ∅ = ([], Done (400%Z, ∅)) /\
  exists t json_result, HandleRequest apart ∅ = (t, Done (200%Z, json_result)).
Proof.
  split.
  - apply (HandleRequest_status off_the_map ∅).
    exists (123456789, 0)%Z. split; [| reflexivity].
    apply elem_of_cons. right. apply elem_of_cons. left. reflexivity.
  - destruct (HandleRequest_status apart ∅) as (_ & Hresolved & _).
    destruct (Hresolved [EvIncrementalFind 0 (1, 0)%Z 1;
                         EvIncrementalFind 1 (12, 0)%Z 1]
                        [[1]; [12]] eq_refl ltac:(vm_compute; reflexivity))
      as (_ & _ & Hfull).
    apply Hfull; [discriminate | exact collaborators_behave_apart].
Defined.

(** * The further properties on the small network *)

Lemma GetPhantomNodes_trace_witness :
  (GetPhantomNodes two_islands (fresh_array two_islands)).1
  = concat (imap (waypoint_events two_islands) (coordinates two_islands)).
Proof.
  apply (GetPhantomNodes_trace two_islands _ [[3]; [12]; [5]]).
  vm_compute. reflexivity.
Defined.

Lemma stale_checksum_ignores_hints_witness :
  (GetPhantomNodes stale (fresh_array stale)).1
  = imap (fun i c => EvIncrementalFind i c 1) (coordinates stale) /\
  [[1]; [12]; [5]]
  = map (fun c => erase_first_if_many
                    (IncrementalFindPhantomNodeForCoordinate c [] 1))
        (coordinates stale).
Proof.
  apply (stale_checksum_ignores_hints stale).
  - discriminate.
  - vm_compute. reflexivity.
Defined.

Lemma GetPhantomNodes_frame_witness :
  length (coordinates two_islands) <= length [[]; []; []; [77]] /\
  length [[3]; [12]; [5]; [77]] = length [[]; []; []; [77]] /\
  [[3]; [12]; [5]; [77]] !! 3 = [[]; []; []; [77]] !! 3.
Proof.
  destruct (GetPhantomNodes_frame two_islands [[]; []; []; [77]]
              [[3]; [12]; [5]; [77]]
              [EvDecodeFromBase64 "abc"; EvIncrementalFind 1 (12, 0)%Z 1;
               EvIncrementalFind 2 (5, 0)%Z 1])
    as (Hslots & Hlen & Hframe); [vm_compute; reflexivity |].
  split; [exact Hslots |]. split; [exact Hlen |].
  apply Hframe. simpl. lia.
Defined.

Lemma SplitUnaccessibleLocations_groups_by_id_witness :
  length [[0; 2]; [1]]
  = get_number_of_components (scc_run (GetTable table_two_islands) 3) /\
  (2 ∈ [0; 2] <->
   2 < 3 /\ get_component_id (scc_run (GetTable table_two_islands) 3) 2 = 0).
Proof.
  destruct (SplitUnaccessibleLocations_groups_by_id 3 table_two_islands
              [[0; 2]; [1]] [EvTarjanRun 3])
    as [Hlen Hgroups]; [vm_compute; reflexivity |].
  split; [exact Hlen |].
  destruct (Hgroups 0 [0; 2] eq_refl) as [Hmembers _]. apply Hmembers.
Defined.

Lemma SplitUnaccessibleLocations_indexes_from_start_witness :
  length [[7; 0; 2]; [1]; []] = 3 /\
  [[7; 0; 2]; [1]; []] !! 0 = Some [7; 0; 2] /\
  [[7; 0; 2]; [1]; []] !! 2 = Some [].
Proof.
  destruct (SplitUnaccessibleLocations_indexes_from_start 3 table_two_islands
              [[7]] [[7; 0; 2]; [1]; []] [EvTarjanRun 3])
    as (Hlen & Hold & Hnew); [vm_compute; reflexivity |].
  split; [exact Hlen |]. split.
  - exact (Hold 0 [7] eq_refl).
  - apply (Hnew 2). simpl. lia.
Defined.

Lemma ComputeRoute_round_trip_witness :
  exists legs,
    (ComputeRoute [[3]; [12]; [5]] two_islands [0; 2; 1]
                  InternalRouteResult_default).1
    = [EvShortestPath legs false] /\
    map source_phantom legs = [3; 5; 12] /\
    map target_phantom legs = [5; 12; 3].
Proof.
  destruct (ComputeRoute_round_trip [[3]; [12]; [5]] two_islands [0; 2; 1]
              InternalRouteResult_default
              (shortest_path
                 [mkPhantomNodes 3 5; mkPhantomNodes 5 12; mkPhantomNodes 12 3]
                 false InternalRouteResult_default)
              (ComputeRoute [[3]; [12]; [5]] two_islands [0; 2; 1]
                            InternalRouteResult_default).1)
    as (ps & legs & Hps & Htrace & _ & Hsources & Htargets).
  - reflexivity.
  - vm_compute. reflexivity.
  - assert (ps = [3; 5; 12]) as ->.
    { apply Forall2_cons_inv_l in Hps as (p0 & ps0 & H0 & Hps & ->).
      apply Forall2_cons_inv_l in Hps as (p1 & ps1 & H1 & Hps & ->).
      apply Forall2_cons_inv_l in Hps as (p2 & ps2 & H2 & Hps & ->).
      apply Forall2_nil_inv_l in Hps as ->.
      injection H0 as <-. injection H1 as <-. injection H2 as <-. reflexivity. }
    exists legs. split; [exact Htrace |]. split; [exact Hsources | exact Htargets].
Defined.

Lemma ComputeRoutes_appends_witness :
  exists firsts,
    Forall2 (fun trip first =>
               (ComputeRoute [[3]; [12]; [5]] two_islands trip
                             InternalRouteResult_default).2 = Done first)
            [[0; 2]] firsts /\
    (ComputeRoutes [[3]; [12]; [5]] two_islands [[0; 2]] []).2
    = Done ([] ++ map (fun first =>
                         shortest_path (segment_end_coordinates first)
                                       (uturns two_islands) first)
                      firsts).
Proof.
  destruct (ComputeRoutes_appends [[3]; [12]; [5]] two_islands [[0; 2]] []
              [shortest_path [mkPhantomNodes 3 5; mkPhantomNodes 5 3] false
                             InternalRouteResult_default]
              (ComputeRoutes [[3]; [12]; [5]] two_islands [[0; 2]] []).1)
    as (firsts & Hfirsts & Hroutes & _); [vm_compute; reflexivity |].
  exists firsts. split; [exact Hfirsts |].
  rewrite <- Hroutes. vm_compute. reflexivity.
Defined.

Lemma HandleRequest_two_tours :
  HandleRequest two_tours ∅
  = ((HandleRequest two_tours ∅).1, Done (200%Z, answer_two_tours)).
Proof. vm_compute. reflexivity. Qed.

Lemma one_heuristic_call_per_tour_witness :
  tsp_calls (HandleRequest two_tours ∅).1 = [(NN, [0; 2]); (NN, [1; 3; 4])].
Proof.
  destruct (one_heuristic_call_per_tour two_tours ∅ answer_two_tours
              (HandleRequest two_tours ∅).1 HandleRequest_two_tours)
    as (t_r & t_c & v & components & Hresolve & Hsplit & Hcalls).
  vm_compute in Hresolve. injection Hresolve as <- <-.
  vm_compute in Hsplit. injection Hsplit as <- <-.
  rewrite Hcalls. vm_compute. reflexivity.
Defined.

Lemma calls_follow_the_stages_witness :
  in_phase_order (HandleRequest two_tours ∅).1.
Proof.
  apply (calls_follow_the_stages two_tours ∅ answer_two_tours
           (HandleRequest two_tours ∅).1 200%Z HandleRequest_two_tours).
Defined.

Lemma last_route_wins_witness :
  answer_two_tours !! "via_points"%string = Some (json.Number (inject_Z 3)).
Proof.
  destruct (last_route_wins two_tours ∅ answer_two_tours
              (HandleRequest two_tours ∅).1 "via_points"
              (fun r => json.Number
                          (inject_Z (Z.of_nat (length (segment_end_coordinates r))))))
    as (t_r & t_c & v & components & Hresolve & Hsplit & Hlast).
  - discriminate.
  - intros r o. apply lookup_insert_eq.
  - exact HandleRequest_two_tours.
  - vm_compute in Hresolve. injection Hresolve as <- <-.
    vm_compute in Hsplit. injection Hsplit as <- <-.
    erewrite Hlast; [| vm_compute; reflexivity]. reflexivity.
Defined.

Lemma GetPhantomNodes_resolves_witness :
  (GetPhantomNodes two_islands (fresh_array two_islands)).2
  = Done [[DecodeFromBase64 "abc"]; [12]; [5]].
Proof.
  rewrite (GetPhantomNodes_resolves two_islands); [reflexivity |].
  intros i c Hc Hu.
  destruct i as [| [| [| i]]]; [discriminate Hu | | | discriminate Hc];
    injection Hc as <-; eexists; split; reflexivity.
Defined.

(** With the clock of [stopwatch] the log line carries a tenth of a
    millisecond and the response the nearest [float]. *)
Lemma HandleRequest_stopwatch :
  exists t json_result,
    HandleRequest (ext := stopwatch) two_islands ∅
    = (t, Done (200%Z, json_result)) /\
    EvLogRuntime (1 # 10) ∈ t.
Proof.
  eexists _, _. split; [vm_compute; reflexivity |].
  do 9 (apply elem_of_cons; right). apply elem_of_cons. left. reflexivity.
Qed.

Lemma handler_writes_runtime_and_distance_witness :
  exists t json_result,
    HandleRequest (ext := stopwatch) two_islands ∅
    = (t, Done (200%Z, json_result)) /\
    json_result !! "runtime"%string
    = Some (json.Number (13421773 # 134217728)).
Proof.
  destruct HandleRequest_stopwatch as (t & json_result & Hrun & _).
  exists t, json_result. split; [exact Hrun |].
  rewrite (handler_writes_runtime_and_distance (ext := stopwatch) two_islands ∅
             json_result t "runtime").
  - reflexivity.
  - discriminate.
  - intros r o. apply lookup_insert_ne. discriminate.
  - exact Hrun.
Defined.
